(** * The maze store (useMaze) and its overlay component (GameOverlay)

    A shallow embedding of the zustand store of the maze demo: the two maze
    generators, the overlay operations, the visualization and movement
    cursors, and the timers the overlay component owns.

    JavaScript numbers that the code uses as coordinates, sizes and cursors
    are integers here ([Z]); arrays are lists read with the JavaScript rule
    that an index outside the array yields [undefined] ([None]); reading a
    property of [undefined] raises [TypeError]. *)

From Stdlib Require Import ZArith QArith Lia.
From stdpp Require Import base tactics option numbers list list_numbers.

Local Open Scope Z_scope.

(** ** Results of fallible code *)

(** [TypeError] is what JavaScript raises when a property of [undefined] is
    read or written.  [OutOfFuel] belongs to the embedding alone: it marks a
    recursion cut off by its fuel and is shown never to occur. *)
Inductive Result (A : Type) : Type :=
| Ok (a : A)
| TypeError
| OutOfFuel.

Arguments Ok {A} a.
Arguments TypeError {A}.
Arguments OutOfFuel {A}.

#[global] Instance Result_ret : MRet Result := λ A a, Ok a.
#[global] Instance Result_bind : MBind Result := λ A B f m,
  match m with
  | Ok a => f a
  | TypeError => TypeError
  | OutOfFuel => OutOfFuel
  end.

(** Reading a property of a value that may be [undefined]. *)
Definition defined {A} (o : option A) : Result A :=
  match o with
  | Some a => Ok a
  | None => TypeError
  end.

(** [for (const a of l) { s = f(s, a) }] where the body may raise. *)
Fixpoint forEachM {S A} (f : S → A → Result S) (s : S) (l : list A) : Result S :=
  match l with
  | [] => Ok s
  | a :: l' => s' ← f s a; forEachM f s' l'
  end.

(** ** JavaScript arrays *)

(** [l[i]] for an integer [i]: [undefined] outside [0 .. length-1]. *)
Definition nthZ {A} (l : list A) (i : Z) : option A :=
  if 0 <=? i then l !! Z.to_nat i else None.

(** ** The data model (lines 4-28 of the store) *)

Inductive Algorithm := astar | bfs | dfs | ucs | ids.
Inductive GamePhase := menu | solving | visualizing | moving | completed.
Inductive Difficulty := easy | medium | hard.
Inductive VisualizationMode := instant | step.

(** [Position]: the fields [x] and [z] of the source. *)
Record Position := mkPosition { pos_x : Z; pos_z : Z }.

(** [MazeCell]: [cell_x] and [cell_z] are the fields [x] and [z]. *)
Record MazeCell := mkCell {
  cell_x : Z;
  cell_z : Z;
  isWall : bool;
  isStart : bool;
  isEnd : bool;
  isPath : bool;
  isVisited : bool;
}.

(** The solver's statistics are stored verbatim; the time is a rational
    standing for the double of the source. *)
Record AlgorithmStats := mkStats {
  solveTimeMs : Q;
  nodesExplored : Z;
  pathLength : Z;
}.

#[global] Instance Position_eq_dec : EqDecision Position.
Proof. solve_decision. Defined.
#[global] Instance GamePhase_eq_dec : EqDecision GamePhase.
Proof. solve_decision. Defined.

(** Assignments to one field of a cell. *)
Definition setIsWall (b : bool) (c : MazeCell) : MazeCell :=
  mkCell (cell_x c) (cell_z c) b (isStart c) (isEnd c) (isPath c) (isVisited c).
Definition setIsStart (b : bool) (c : MazeCell) : MazeCell :=
  mkCell (cell_x c) (cell_z c) (isWall c) b (isEnd c) (isPath c) (isVisited c).
Definition setIsEnd (b : bool) (c : MazeCell) : MazeCell :=
  mkCell (cell_x c) (cell_z c) (isWall c) (isStart c) b (isPath c) (isVisited c).
Definition setIsPath (b : bool) (c : MazeCell) : MazeCell :=
  mkCell (cell_x c) (cell_z c) (isWall c) (isStart c) (isEnd c) b (isVisited c).
Definition setIsVisited (b : bool) (c : MazeCell) : MazeCell :=
  mkCell (cell_x c) (cell_z c) (isWall c) (isStart c) (isEnd c) (isPath c) b.

(** ** The grid: [MazeCell[][]], rows indexed by [z], columns by [x] *)

Abbreviation Grid := (list (list MazeCell)).

(** [maze[z] && maze[z][x]]: the cell, or [None] when the row or the cell is
    [undefined].  Rows and cells are objects, hence truthy when present. *)
Definition cellAt (maze : Grid) (x z : Z) : option MazeCell :=
  row ← nthZ maze z; nthZ row x.

(** The in-place change [maze[z][x] := f(maze[z][x])] of an existing cell. *)
Definition alterCell (f : MazeCell → MazeCell) (x z : Z) (maze : Grid) : Grid :=
  if (0 <=? x) && (0 <=? z)
  then alter (alter f (Z.to_nat x)) (Z.to_nat z) maze
  else maze.

(** An unguarded write [maze[z][x].field = v]: raises when [maze[z]] or
    [maze[z][x]] is [undefined]. *)
Definition updateCell (f : MazeCell → MazeCell) (maze : Grid) (x z : Z) : Result Grid :=
  match cellAt maze x z with
  | Some _ => Ok (alterCell f x z maze)
  | None => TypeError
  end.

(** A guarded write [if (maze[z] && maze[z][x]) maze[z][x].field = v]. *)
Definition touchCell (f : MazeCell → MazeCell) (maze : Grid) (x z : Z) : Grid :=
  match cellAt maze x z with
  | Some _ => alterCell f x z maze
  | None => maze
  end.

(** The nested initialisation loops of both generators: [height] rows of
    [width] fresh cells, walls or open. *)
Definition freshCell (wall : bool) (x z : Z) : MazeCell :=
  mkCell x z wall false false false false.

Definition initGrid (wall : bool) (width height : Z) : Grid :=
  (λ z, (λ x, freshCell wall x z) <$> seqZ 0 width) <$> seqZ 0 height.

(** [maze.map(row => row.map(cell => f(cell)))]: a fresh grid of fresh cells. *)
Definition mapGrid (f : MazeCell → MazeCell) (maze : Grid) : Grid :=
  (λ row : list MazeCell, f <$> row) <$> maze.

(** The grid has [height] rows of [width] cells and the cell stored at
    [maze[z][x]] records its own coordinates. *)
Definition gridShape (width height : Z) (maze : Grid) : Prop :=
  Z.of_nat (length maze) = height ∧
  (∀ row, row ∈ maze → Z.of_nat (length row) = width) ∧
  (∀ x z c, cellAt maze x z = Some c → cell_x c = x ∧ cell_z c = z).

(** ** The randomized recursive backtracker (lines 71-137) *)

(** The draws of [Math.random]: each [Math.floor(Math.random() * n)]
    consumes one number of the source and reduces it below [n]; a source
    that has run dry answers [0].  Every run of the program is the run of
    some such list. *)
Abbreviation Rng := (list nat).

Definition randomBelow (n : nat) (rng : Rng) : nat * Rng :=
  match rng with
  | [] => (0%nat, [])
  | r :: rng' => ((r `mod` n)%nat, rng')
  end.

(** [[l[i], l[j]] = [l[j], l[i]]] *)
Definition swap {A} (i j : nat) (l : list A) : list A :=
  match l !! i, l !! j with
  | Some a, Some b => <[j := a]> (<[i := b]> l)
  | _, _ => l
  end.

(** [for (let i = ...; i > 0; i--) { j = floor(random() * (i + 1)); swap i j }] *)
Fixpoint shuffle {A} (i : nat) (l : list A) (rng : Rng) : list A * Rng :=
  match i with
  | O => (l, rng)
  | S i' =>
      let '(j, rng') := randomBelow (S i) rng in
      shuffle i' (swap i j l) rng'
  end.

(** A direction [{dx, dz}]. *)
Record Direction := mkDir { dx : Z; dz : Z }.

Definition directions : list Direction :=
  [mkDir 0 (-2); mkDir 0 2; mkDir (-2) 0; mkDir 2 0].

Section Carve.
Variables width height : Z.

(** The body of [for (const dir of directions)] in [carve(x, z)]; [rec]
    is the recursive call. *)
Definition carveDir (rec : Z → Z → Grid → Rng → Result (Grid * Rng))
    (x z : Z) (st : Grid * Rng) (dir : Direction) : Result (Grid * Rng) :=
  let '(maze, rng) := st in
  let newX := x + dx dir in
  let newZ := z + dz dir in
  if (0 <? newX) && (newX <? width - 1) && (0 <? newZ) && (newZ <? height - 1) then
    cell ← defined (cellAt maze newX newZ);
    if isWall cell then
      maze' ← updateCell (setIsWall false) maze (x + dx dir / 2) (z + dz dir / 2);
      rec newX newZ maze' rng
    else Ok (maze, rng)
  else Ok (maze, rng).

(** [carve(x, z)], with the maze and the random source threaded through.
    The recursion of the source has no bound of its own; [fuel] bounds
    its depth here. *)
Fixpoint carve (fuel : nat) (x z : Z) (maze : Grid) (rng : Rng)
    : Result (Grid * Rng) :=
  match fuel with
  | O => OutOfFuel
  | S fuel' =>
      maze1 ← updateCell (setIsWall false) maze x z;
      let '(dirs, rng1) := shuffle (length directions - 1) directions rng in
      forEachM (carveDir (carve fuel') x z) (maze1, rng1) dirs
  end.
End Carve.

(** The result [{ maze, start, end }] of [generateRandomMaze]. *)
Record RandomMaze := mkRandomMaze {
  rm_maze : Grid;
  rm_start : Position;
  rm_end : Position;
}.

(** Every call of [carve] opens a cell that was a wall, so the depth of the
    recursion never exceeds the number of cells; that number is the fuel. *)
Definition generateRandomMaze (width height : Z) (rng : Rng) : Result RandomMaze :=
  let maze := initGrid true width height in
  let start := mkPosition 1 1 in
  let end_ := mkPosition (width - 2) (height - 2) in
  '(maze, _) ← carve width height (Z.to_nat (width * height)) 1 1 maze rng;
  maze ← updateCell (setIsStart true) maze (pos_x start) (pos_z start);
  maze ← updateCell (setIsWall false) maze (pos_x start) (pos_z start);
  maze ← updateCell (setIsEnd true) maze (pos_x end_) (pos_z end_);
  maze ← updateCell (setIsWall false) maze (pos_x end_) (pos_z end_);
  let maze := touchCell (setIsWall false) maze (pos_x end_) (pos_z end_ - 1) in
  let maze := touchCell (setIsWall false) maze (pos_x end_ - 1) (pos_z end_) in
  Ok (mkRandomMaze maze start end_).

(** ** The preset catalog and its loader (lines 139-232) *)

(** A catalog entry; a wall [[z, x]] is the pair [(z, x)]. *)
Record Preset := mkPreset {
  preset_walls : list (Z * Z);
  preset_width : Z;
  preset_height : Z;
}.

Definition PRESET_MAZES : list Preset := [
  mkPreset [
    (2, 1); (2, 2); (2, 3); (2, 5); (2, 6); (2, 7); (2, 9); (2, 10); (2, 11);
    (4, 3); (4, 4); (4, 5); (4, 7); (4, 8); (4, 9); (4, 11); (4, 12); (4, 13);
    (5, 3); (5, 9);
    (6, 1); (6, 3); (6, 5); (6, 6); (6, 7); (6, 9); (6, 11);
    (7, 5); (7, 11);
    (8, 1); (8, 2); (8, 3); (8, 5); (8, 7); (8, 8); (8, 9); (8, 11); (8, 12); (8, 13);
    (9, 7);
    (10, 1); (10, 2); (10, 3); (10, 5); (10, 6); (10, 7); (10, 9); (10, 10); (10, 11);
    (11, 3); (11, 9);
    (12, 3); (12, 5); (12, 6); (12, 7); (12, 9); (12, 11); (12, 12); (12, 13)
  ] 15 15;
  mkPreset [
    (2, 2); (2, 4); (2, 6); (2, 8); (2, 10); (2, 12);
    (3, 2); (3, 6); (3, 10);
    (4, 2); (4, 4); (4, 6); (4, 8); (4, 10); (4, 12);
    (5, 4); (5, 8); (5, 12);
    (6, 2); (6, 4); (6, 6); (6, 8); (6, 10); (6, 12);
    (7, 2); (7, 6); (7, 10);
    (8, 2); (8, 4); (8, 6); (8, 8); (8, 10); (8, 12);
    (9, 4); (9, 8); (9, 12);
    (10, 2); (10, 4); (10, 6); (10, 8); (10, 10); (10, 12);
    (11, 2); (11, 6); (11, 10);
    (12, 2); (12, 4); (12, 6); (12, 8); (12, 10); (12, 12)
  ] 15 15;
  mkPreset [
    (1, 7); (2, 7); (3, 7); (4, 7); (5, 7);
    (7, 1); (7, 2); (7, 3); (7, 4); (7, 5); (7, 9); (7, 10); (7, 11); (7, 12); (7, 13);
    (9, 7); (10, 7); (11, 7); (12, 7); (13, 7);
    (3, 3); (3, 11); (11, 3); (11, 11);
    (4, 3); (4, 11); (10, 3); (10, 11);
    (3, 4); (3, 10); (11, 4); (11, 10)
  ] 15 15
].

(** The two loops that lay the boundary ring (lines 208-215). *)
Definition layRing (width height : Z) (maze : Grid) : Result Grid :=
  maze ← forEachM (λ maze x,
            maze ← updateCell (setIsWall true) maze x 0;
            updateCell (setIsWall true) maze x (height - 1))
          maze (seqZ 0 width);
  forEachM (λ maze z,
      maze ← updateCell (setIsWall true) maze 0 z;
      updateCell (setIsWall true) maze (width - 1) z)
    maze (seqZ 0 height).

(** One step of [walls.forEach(([z, x]) => ...)] (lines 217-221): the guard
    compares against the upper bounds only. *)
Definition layWall (width height : Z) (maze : Grid) (wall : Z * Z) : Result Grid :=
  let '(z, x) := wall in
  if (z <? height) && (x <? width)
  then updateCell (setIsWall true) maze x z
  else Ok maze.

Definition layWalls (width height : Z) (walls : list (Z * Z)) (maze : Grid) : Result Grid :=
  forEachM (layWall width height) maze walls.

(** The result [{ maze, start, end, width, height }] of [createPresetMaze]. *)
Record PresetMaze := mkPresetMaze {
  pm_maze : Grid;
  pm_start : Position;
  pm_end : Position;
  pm_width : Z;
  pm_height : Z;
}.

(** Everything of [createPresetMaze] after the catalog entry is chosen. *)
Definition buildPresetMaze (preset : Preset) : Result PresetMaze :=
  let width := preset_width preset in
  let height := preset_height preset in
  let maze := initGrid false width height in
  maze ← layRing width height maze;
  maze ← layWalls width height (preset_walls preset) maze;
  let start := mkPosition 1 1 in
  let end_ := mkPosition (width - 2) (height - 2) in
  maze ← updateCell (setIsStart true) maze (pos_x start) (pos_z start);
  maze ← updateCell (setIsWall false) maze (pos_x start) (pos_z start);
  maze ← updateCell (setIsEnd true) maze (pos_x end_) (pos_z end_);
  maze ← updateCell (setIsWall false) maze (pos_x end_) (pos_z end_);
  Ok (mkPresetMaze maze start end_ width height).

(** [presetIndex % PRESET_MAZES.length] is JavaScript's remainder, which has
    the sign of the dividend ([Z.rem]); destructuring the [undefined] that a
    negative index yields raises. *)
Definition createPresetMaze (presetIndex : Z) : Result PresetMaze :=
  preset ← defined (nthZ PRESET_MAZES (Z.rem presetIndex (Z.of_nat (length PRESET_MAZES))));
  buildPresetMaze preset.

(** ** The store (lines 30-63 and 234-394) *)

Record MazeState := mkState {
  phase : GamePhase;
  selectedAlgorithm : option Algorithm;
  maze : Grid;
  mazeWidth : Z;
  mazeHeight : Z;
  startPos : Position;
  endPos : Position;
  path : list Position;
  visitedCells : list Position;
  (** [None] is the [undefined] that [path[pathIndex]] yields outside the
      array. *)
  ballPosition : option Position;
  pathIndex : Z;
  stats : option AlgorithmStats;
  visualizationMode : VisualizationMode;
  difficulty : Difficulty;
  visualizationIndex : Z;
}.

Definition DIFFICULTY_SIZES (d : Difficulty) : Z * Z :=
  match d with
  | easy => (11, 11)
  | medium => (15, 15)
  | hard => (21, 21)
  end.

(** The store as [create] builds it, from [initialMaze = createPresetMaze(0)]. *)
Definition createStore : Result MazeState :=
  initialMaze ← createPresetMaze 0;
  Ok {| phase := menu; selectedAlgorithm := None;
        maze := pm_maze initialMaze;
        mazeWidth := pm_width initialMaze; mazeHeight := pm_height initialMaze;
        startPos := pm_start initialMaze; endPos := pm_end initialMaze;
        path := []; visitedCells := [];
        ballPosition := Some (pm_start initialMaze);
        pathIndex := 0; stats := None;
        visualizationMode := instant; difficulty := medium;
        visualizationIndex := 0 |}.

Definition setAlgorithm (algo : Algorithm) (s : MazeState) : MazeState :=
  {| phase := phase s; selectedAlgorithm := Some algo; maze := maze s;
     mazeWidth := mazeWidth s; mazeHeight := mazeHeight s;
     startPos := startPos s; endPos := endPos s;
     path := path s; visitedCells := visitedCells s;
     ballPosition := ballPosition s; pathIndex := pathIndex s; stats := stats s;
     visualizationMode := visualizationMode s; difficulty := difficulty s;
     visualizationIndex := visualizationIndex s |}.

Definition setVisualizationMode (mode : VisualizationMode) (s : MazeState) : MazeState :=
  {| phase := phase s; selectedAlgorithm := selectedAlgorithm s; maze := maze s;
     mazeWidth := mazeWidth s; mazeHeight := mazeHeight s;
     startPos := startPos s; endPos := endPos s;
     path := path s; visitedCells := visitedCells s;
     ballPosition := ballPosition s; pathIndex := pathIndex s; stats := stats s;
     visualizationMode := mode; difficulty := difficulty s;
     visualizationIndex := visualizationIndex s |}.

Definition setDifficulty (diff : Difficulty) (s : MazeState) : MazeState :=
  {| phase := phase s; selectedAlgorithm := selectedAlgorithm s; maze := maze s;
     mazeWidth := mazeWidth s; mazeHeight := mazeHeight s;
     startPos := startPos s; endPos := endPos s;
     path := path s; visitedCells := visitedCells s;
     ballPosition := ballPosition s; pathIndex := pathIndex s; stats := stats s;
     visualizationMode := visualizationMode s; difficulty := diff;
     visualizationIndex := visualizationIndex s |}.

(** [set({ phase })] *)
Definition setPhase (p : GamePhase) (s : MazeState) : MazeState :=
  {| phase := p; selectedAlgorithm := selectedAlgorithm s; maze := maze s;
     mazeWidth := mazeWidth s; mazeHeight := mazeHeight s;
     startPos := startPos s; endPos := endPos s;
     path := path s; visitedCells := visitedCells s;
     ballPosition := ballPosition s; pathIndex := pathIndex s; stats := stats s;
     visualizationMode := visualizationMode s; difficulty := difficulty s;
     visualizationIndex := visualizationIndex s |}.

Definition startGame (s : MazeState) : MazeState :=
  match selectedAlgorithm s with
  | Some _ => setPhase solving s
  | None => s
  end.

(** [cells.forEach(pos => { if (m[pos.z] && m[pos.z][pos.x]) m[pos.z][pos.x] = f(...) })] *)
Definition markCells (f : MazeCell → MazeCell) (cells : list Position) (m : Grid) : Grid :=
  fold_left (λ m pos, touchCell f m (pos_x pos) (pos_z pos)) cells m.

Definition setPath (p : list Position) (s : MazeState) : MazeState :=
  let newMaze := mapGrid (setIsPath false) (maze s) in
  let newMaze := markCells (setIsPath true) p newMaze in
  {| phase := phase s; selectedAlgorithm := selectedAlgorithm s; maze := newMaze;
     mazeWidth := mazeWidth s; mazeHeight := mazeHeight s;
     startPos := startPos s; endPos := endPos s;
     path := p; visitedCells := visitedCells s;
     ballPosition := ballPosition s; pathIndex := pathIndex s; stats := stats s;
     visualizationMode := visualizationMode s; difficulty := difficulty s;
     visualizationIndex := visualizationIndex s |}.

Definition setVisitedCells (cells : list Position) (s : MazeState) : MazeState :=
  let newMaze := mapGrid (setIsVisited false) (maze s) in
  let newMaze := markCells (setIsVisited true) cells newMaze in
  {| phase := phase s; selectedAlgorithm := selectedAlgorithm s; maze := newMaze;
     mazeWidth := mazeWidth s; mazeHeight := mazeHeight s;
     startPos := startPos s; endPos := endPos s;
     path := path s; visitedCells := cells;
     ballPosition := ballPosition s; pathIndex := pathIndex s; stats := stats s;
     visualizationMode := visualizationMode s; difficulty := difficulty s;
     visualizationIndex := visualizationIndex s |}.

Definition storeVisitedCells (cells : list Position) (s : MazeState) : MazeState :=
  {| phase := phase s; selectedAlgorithm := selectedAlgorithm s; maze := maze s;
     mazeWidth := mazeWidth s; mazeHeight := mazeHeight s;
     startPos := startPos s; endPos := endPos s;
     path := path s; visitedCells := cells;
     ballPosition := ballPosition s; pathIndex := pathIndex s; stats := stats s;
     visualizationMode := visualizationMode s; difficulty := difficulty s;
     visualizationIndex := visualizationIndex s |}.

Definition setStats (st : AlgorithmStats) (s : MazeState) : MazeState :=
  {| phase := phase s; selectedAlgorithm := selectedAlgorithm s; maze := maze s;
     mazeWidth := mazeWidth s; mazeHeight := mazeHeight s;
     startPos := startPos s; endPos := endPos s;
     path := path s; visitedCells := visitedCells s;
     ballPosition := ballPosition s; pathIndex := pathIndex s; stats := Some st;
     visualizationMode := visualizationMode s; difficulty := difficulty s;
     visualizationIndex := visualizationIndex s |}.

Definition startVisualization (s : MazeState) : MazeState :=
  let newMaze := mapGrid (λ cell, setIsPath false (setIsVisited false cell)) (maze s) in
  {| phase := visualizing; selectedAlgorithm := selectedAlgorithm s; maze := newMaze;
     mazeWidth := mazeWidth s; mazeHeight := mazeHeight s;
     startPos := startPos s; endPos := endPos s;
     path := path s; visitedCells := visitedCells s;
     ballPosition := ballPosition s; pathIndex := pathIndex s; stats := stats s;
     visualizationMode := visualizationMode s; difficulty := difficulty s;
     visualizationIndex := 0 |}.

(** [set({ maze, visualizationIndex })] *)
Definition setMazeAndCursor (m : Grid) (i : Z) (s : MazeState) : MazeState :=
  {| phase := phase s; selectedAlgorithm := selectedAlgorithm s; maze := m;
     mazeWidth := mazeWidth s; mazeHeight := mazeHeight s;
     startPos := startPos s; endPos := endPos s;
     path := path s; visitedCells := visitedCells s;
     ballPosition := ballPosition s; pathIndex := pathIndex s; stats := stats s;
     visualizationMode := visualizationMode s; difficulty := difficulty s;
     visualizationIndex := i |}.

(** The state after the call, and the boolean it returns.  In the first
    branch [visitedCells[visualizationIndex]] is read without a lower-bound
    check: below zero it is [undefined] and [cell.z] raises. *)
Definition advanceVisualization (s : MazeState) : Result (MazeState * bool) :=
  if visualizationIndex s <? Z.of_nat (length (visitedCells s)) then
    let newMaze := mapGrid (λ cell, cell) (maze s) in
    cell ← defined (nthZ (visitedCells s) (visualizationIndex s));
    let newMaze := touchCell (setIsVisited true) newMaze (pos_x cell) (pos_z cell) in
    Ok (setMazeAndCursor newMaze (visualizationIndex s + 1) s, true)
  else
    let newMaze := mapGrid (λ cell, cell) (maze s) in
    let newMaze := markCells (setIsPath true) (path s) newMaze in
    Ok (setMazeAndCursor newMaze (visualizationIndex s) s, false).

Definition startMoving (s : MazeState) : MazeState :=
  {| phase := moving; selectedAlgorithm := selectedAlgorithm s; maze := maze s;
     mazeWidth := mazeWidth s; mazeHeight := mazeHeight s;
     startPos := startPos s; endPos := endPos s;
     path := path s; visitedCells := visitedCells s;
     ballPosition := ballPosition s; pathIndex := 0; stats := stats s;
     visualizationMode := visualizationMode s; difficulty := difficulty s;
     visualizationIndex := visualizationIndex s |}.

Definition moveBall (s : MazeState) : MazeState * bool :=
  if pathIndex s <? Z.of_nat (length (path s)) then
    ({| phase := phase s; selectedAlgorithm := selectedAlgorithm s; maze := maze s;
        mazeWidth := mazeWidth s; mazeHeight := mazeHeight s;
        startPos := startPos s; endPos := endPos s;
        path := path s; visitedCells := visitedCells s;
        ballPosition := nthZ (path s) (pathIndex s);
        pathIndex := pathIndex s + 1; stats := stats s;
        visualizationMode := visualizationMode s; difficulty := difficulty s;
        visualizationIndex := visualizationIndex s |}, true)
  else (s, false).

Definition complete (s : MazeState) : MazeState := setPhase completed s.

Definition restart (rng : Rng) (s : MazeState) : Result MazeState :=
  let size := DIFFICULTY_SIZES (difficulty s) in
  newMaze ← generateRandomMaze size.1 size.2 rng;
  Ok {| phase := menu; selectedAlgorithm := None; maze := rm_maze newMaze;
        mazeWidth := size.1; mazeHeight := size.2;
        startPos := rm_start newMaze; endPos := rm_end newMaze;
        path := []; visitedCells := [];
        ballPosition := Some (rm_start newMaze); pathIndex := 0; stats := None;
        visualizationMode := visualizationMode s; difficulty := difficulty s;
        visualizationIndex := 0 |}.

Definition generateMaze (rng : Rng) (s : MazeState) : Result MazeState :=
  let size := DIFFICULTY_SIZES (difficulty s) in
  newMaze ← generateRandomMaze size.1 size.2 rng;
  Ok {| phase := phase s; selectedAlgorithm := selectedAlgorithm s;
        maze := rm_maze newMaze;
        mazeWidth := size.1; mazeHeight := size.2;
        startPos := rm_start newMaze; endPos := rm_end newMaze;
        path := []; visitedCells := [];
        ballPosition := Some (rm_start newMaze); pathIndex := 0; stats := None;
        visualizationMode := visualizationMode s; difficulty := difficulty s;
        visualizationIndex := 0 |}.

Definition loadPresetMaze (preset : Z) (s : MazeState) : Result MazeState :=
  presetMaze ← createPresetMaze preset;
  Ok {| phase := phase s; selectedAlgorithm := selectedAlgorithm s;
        maze := pm_maze presetMaze;
        mazeWidth := pm_width presetMaze; mazeHeight := pm_height presetMaze;
        startPos := pm_start presetMaze; endPos := pm_end presetMaze;
        path := []; visitedCells := [];
        ballPosition := Some (pm_start presetMaze); pathIndex := 0; stats := None;
        visualizationMode := visualizationMode s; difficulty := difficulty s;
        visualizationIndex := 0 |}.

(** *** Sequences of store operations *)

(** One call of a store operation; the generators carry the random draws
    they will consume. *)
Inductive Op :=
| OpSetAlgorithm (algo : Algorithm)
| OpSetVisualizationMode (mode : VisualizationMode)
| OpSetDifficulty (diff : Difficulty)
| OpStartGame
| OpSetPath (p : list Position)
| OpSetVisitedCells (cells : list Position)
| OpStoreVisitedCells (cells : list Position)
| OpSetStats (st : AlgorithmStats)
| OpStartVisualization
| OpAdvanceVisualization
| OpStartMoving
| OpMoveBall
| OpComplete
| OpRestart (rng : Rng)
| OpGenerateMaze (rng : Rng)
| OpLoadPresetMaze (preset : Z).

Definition exec (op : Op) (s : MazeState) : Result MazeState :=
  match op with
  | OpSetAlgorithm algo => Ok (setAlgorithm algo s)
  | OpSetVisualizationMode mode => Ok (setVisualizationMode mode s)
  | OpSetDifficulty diff => Ok (setDifficulty diff s)
  | OpStartGame => Ok (startGame s)
  | OpSetPath p => Ok (setPath p s)
  | OpSetVisitedCells cells => Ok (setVisitedCells cells s)
  | OpStoreVisitedCells cells => Ok (storeVisitedCells cells s)
  | OpSetStats st => Ok (setStats st s)
  | OpStartVisualization => Ok (startVisualization s)
  | OpAdvanceVisualization => r ← advanceVisualization s; Ok r.1
  | OpStartMoving => Ok (startMoving s)
  | OpMoveBall => Ok (moveBall s).1
  | OpComplete => Ok (complete s)
  | OpRestart rng => restart rng s
  | OpGenerateMaze rng => generateMaze rng s
  | OpLoadPresetMaze preset => loadPresetMaze preset s
  end.

(** The states the store can be in: the created store, and whatever a
    completed operation makes of a reachable state.  An operation that
    raises leaves the store as it was. *)
Inductive reachable : MazeState → Prop :=
| reachable_create s : createStore = Ok s → reachable s
| reachable_exec op s s' : reachable s → exec op s = Ok s' → reachable s'.

(** Running a list of operations, stopping at the first that raises. *)
Definition run (ops : list Op) (s : MazeState) : Result MazeState :=
  forEachM (λ s op, exec op s) s ops.

(** ** The overlay component and its timers (GameOverlay.tsx) *)

(** The three closures the component hands to [setTimeout] and
    [setInterval]: [() => { startVisualization(); }] (lines 70-72),
    [() => { startMoving(); }] (lines 76-78 and 92-94) and the interval
    tick (lines 85-96). *)
Inductive Callback := CbStartVisualization | CbStartMoving | CbVisualizationTick.

(** A pending timer: its handle, whether it repeats ([setInterval]), its
    delay in milliseconds and its callback. *)
Record Timer := mkTimer {
  timer_id : nat;
  timer_repeats : bool;
  timer_delay : Z;
  timer_callback : Callback;
}.

(** The store, the three refs of the component ([None] is [null]), and the
    timers of the event loop that have been scheduled and neither fired nor
    been cleared. *)
Record World := mkWorld {
  store : MazeState;
  hasSolvedRef : bool;
  timeoutRef : option nat;
  visualizationIntervalRef : option nat;
  timers : list Timer;
  nextTimerId : nat;
}.

Definition withStore (s : MazeState) (w : World) : World :=
  mkWorld s (hasSolvedRef w) (timeoutRef w) (visualizationIntervalRef w)
    (timers w) (nextTimerId w).

(** [setTimeout(cb, delay)] and [setInterval(cb, delay)]: a fresh handle. *)
Definition schedule (repeats : bool) (delay : Z) (cb : Callback) (w : World) : nat * World :=
  (nextTimerId w,
   mkWorld (store w) (hasSolvedRef w) (timeoutRef w) (visualizationIntervalRef w)
     (timers w ++ [mkTimer (nextTimerId w) repeats delay cb]) (S (nextTimerId w))).

(** [clearTimeout(id)] and [clearInterval(id)]. *)
Definition clearTimer (id : nat) (w : World) : World :=
  mkWorld (store w) (hasSolvedRef w) (timeoutRef w) (visualizationIntervalRef w)
    (List.filter (λ t, negb (timer_id t =? id)%nat) (timers w)) (nextTimerId w).

Definition setTimeoutRef (r : option nat) (w : World) : World :=
  mkWorld (store w) (hasSolvedRef w) r (visualizationIntervalRef w)
    (timers w) (nextTimerId w).

Definition setIntervalRef (r : option nat) (w : World) : World :=
  mkWorld (store w) (hasSolvedRef w) (timeoutRef w) r (timers w) (nextTimerId w).

Definition setHasSolvedRef (b : bool) (w : World) : World :=
  mkWorld (store w) b (timeoutRef w) (visualizationIntervalRef w)
    (timers w) (nextTimerId w).

(** The bodies of the callbacks.  None of them looks at the phase. *)
Definition runCallback (cb : Callback) (w : World) : Result World :=
  match cb with
  | CbStartVisualization => Ok (withStore (startVisualization (store w)) w)
  | CbStartMoving => Ok (withStore (startMoving (store w)) w)
  | CbVisualizationTick =>
      r ← advanceVisualization (store w);
      let hasMore : bool := r.2 in
      let w := withStore r.1 w in
      if hasMore then Ok w
      else
        let w :=
          match visualizationIntervalRef w with
          | Some id => setIntervalRef None (clearTimer id w)
          | None => w
          end in
        let '(id, w) := schedule false 500 CbStartMoving w in
        Ok (setTimeoutRef (Some id) w)
  end.

Fixpoint findTimer (id : nat) (ts : list Timer) : option Timer :=
  match ts with
  | [] => None
  | t :: ts' => if (timer_id t =? id)%nat then Some t else findTimer id ts'
  end.

(** The event loop fires the timer [id]: nothing happens ([None]) unless
    the timer is pending; a timeout is spent, an interval stays. *)
Definition fireTimer (id : nat) (w : World) : option (Result World) :=
  match findTimer id (timers w) with
  | None => None
  | Some t =>
      Some (runCallback (timer_callback t)
              (if timer_repeats t then w else clearTimer id w))
  end.

(** The first effect (lines 38-50), run when the phase has changed. *)
Definition menuCleanupEffect (w : World) : World :=
  if decide (phase (store w) = menu) then
    let w := setHasSolvedRef false w in
    let w :=
      match timeoutRef w with
      | Some id => setTimeoutRef None (clearTimer id w)
      | None => w
      end in
    match visualizationIntervalRef w with
    | Some id => setIntervalRef None (clearTimer id w)
    | None => w
    end
  else w.

(** What the external solver returns. *)
Record SolveResult := mkSolveResult {
  sr_path : list Position;
  sr_visited : list Position;
  sr_stats : AlgorithmStats;
}.

(** [useMaze.setState({ path })] *)
Definition setStatePath (p : list Position) (s : MazeState) : MazeState :=
  {| phase := phase s; selectedAlgorithm := selectedAlgorithm s; maze := maze s;
     mazeWidth := mazeWidth s; mazeHeight := mazeHeight s;
     startPos := startPos s; endPos := endPos s;
     path := p; visitedCells := visitedCells s;
     ballPosition := ballPosition s; pathIndex := pathIndex s; stats := stats s;
     visualizationMode := visualizationMode s; difficulty := difficulty s;
     visualizationIndex := visualizationIndex s |}.

(** The second effect (lines 52-81); the solver [runAlgorithm] of
    [@/lib/pathfinding] is a parameter. *)
Definition solveEffect
    (runAlgorithm : Algorithm → Grid → Position → Position → SolveResult)
    (w : World) : World :=
  match decide (phase (store w) = solving), selectedAlgorithm (store w), hasSolvedRef w with
  | left _, Some algo, false =>
      let w := setHasSolvedRef true w in
      let mazeCopy := mapGrid (λ cell, cell) (maze (store w)) in
      let result := runAlgorithm algo mazeCopy (startPos (store w)) (endPos (store w)) in
      let w := withStore (setStats (sr_stats result) (store w)) w in
      match visualizationMode (store w) with
      | step =>
          let w := withStore (storeVisitedCells (sr_visited result) (store w)) w in
          let w := withStore (setStatePath (sr_path result) (store w)) w in
          let '(id, w) := schedule false 300 CbStartVisualization w in
          setTimeoutRef (Some id) w
      | instant =>
          let w := withStore (setVisitedCells (sr_visited result) (store w)) w in
          let w := withStore (setPath (sr_path result) (store w)) w in
          let '(id, w) := schedule false 500 CbStartMoving w in
          setTimeoutRef (Some id) w
      end
  | _, _, _ => w
  end.

(** The third effect (lines 83-104) and the cleanup it returns. *)
Definition visualizationEffect (w : World) : World :=
  if decide (phase (store w) = visualizing) then
    let '(id, w) := schedule true 30 CbVisualizationTick w in
    setIntervalRef (Some id) w
  else w.

Definition visualizationEffectCleanup (w : World) : World :=
  match visualizationIntervalRef w with
  | Some id => clearTimer id w
  | None => w
  end.

(** [restart()] followed by the effect that the change of phase to [menu]
    triggers. *)
Definition restartAndCleanup (rng : Rng) (w : World) : Result World :=
  s ← restart rng (store w);
  Ok (menuCleanupEffect (withStore s w)).

(** [moveBall()] called [k] times in a row: the final state and the
    booleans returned, in order. *)
Fixpoint moveBalls (k : nat) (s : MazeState) : MazeState * list bool :=
  match k with
  | O => (s, [])
  | S k' =>
      let '(s1, b) := moveBall s in
      let '(s2, bs) := moveBalls k' s1 in
      (s2, b :: bs)
  end.

(** A small session in the moving phase, used to run the operations on. *)
Definition sampleState : MazeState :=
  {| phase := moving; selectedAlgorithm := Some bfs;
     maze := initGrid false 3 3; mazeWidth := 3; mazeHeight := 3;
     startPos := mkPosition 1 1; endPos := mkPosition 1 1;
     path := [mkPosition 1 1; mkPosition 2 1];
     visitedCells := [mkPosition 1 1; mkPosition 1 2; mkPosition 2 1];
     ballPosition := Some (mkPosition 1 1); pathIndex := 0; stats := None;
     visualizationMode := instant; difficulty := easy;
     visualizationIndex := 0 |}.

(** A session in the visualizing phase whose interval is pending and
    tracked, together with an earlier settle timeout. *)
Definition sampleWorld : World :=
  mkWorld (setPhase visualizing sampleState) true (Some 1%nat) (Some 2%nat)
    [mkTimer 1 false 500 CbStartMoving; mkTimer 2 true 30 CbVisualizationTick] 3.

(** The positions of a [width] x [height] grid. *)
Definition inGrid (width height x z : Z) : bool :=
  (0 <=? x) && (x <? width) && (0 <=? z) && (z <? height).

(** Functions on cells that leave the coordinates alone. *)
Definition keepsCoords (f : MazeCell → MazeCell) : Prop :=
  ∀ c, cell_x (f c) = cell_x c ∧ cell_z (f c) = cell_z c.

(** The fields of the store that an overlay operation must leave alone. *)
Definition sameSession (s s' : MazeState) : Prop :=
  phase s' = phase s ∧ selectedAlgorithm s' = selectedAlgorithm s ∧
  mazeWidth s' = mazeWidth s ∧ mazeHeight s' = mazeHeight s ∧
  startPos s' = startPos s ∧ endPos s' = endPos s ∧
  ballPosition s' = ballPosition s ∧ pathIndex s' = pathIndex s ∧
  stats s' = stats s ∧ visualizationMode s' = visualizationMode s ∧
  difficulty s' = difficulty s ∧ visualizationIndex s' = visualizationIndex s.

(** *** Vocabulary for the generators *)

(** The cells strictly inside the boundary ring. *)
Definition interior (width height x z : Z) : Prop :=
  0 < x < width - 1 ∧ 0 < z < height - 1.

(** The boundary ring: [x = 0], [x = width-1], [z = 0] or [z = height-1]. *)
Definition onRing (width height x z : Z) : Prop :=
  x = 0 ∨ x = width - 1 ∨ z = 0 ∨ z = height - 1.

(** The number of wall cells of a grid. *)
Definition wallCount (m : Grid) : nat :=
  sum_list_with (sum_list_with (λ c, if isWall c then 1%nat else 0%nat)) m.

(** [m'] comes from [m] by opening interior cells and nothing else. *)
Definition opened (width height : Z) (m m' : Grid) : Prop :=
  ∀ x z, cellAt m' x z = cellAt m x z ∨
         (interior width height x z ∧ cellAt m' x z = setIsWall false <$> cellAt m x z).

(** The four directions: a step of two cells along one axis. *)
Definition isDirection (d : Direction) : Prop :=
  (dx d = 0 ∧ (dz d = -2 ∨ dz d = 2)) ∨ (dz d = 0 ∧ (dx d = -2 ∨ dx d = 2)).

(** What one call [rec x z] of the carving recursion achieves on a wall cell
    of the interior, as long as the grid has at most [bound] walls: it
    returns, it only opens interior cells, and it leaves fewer walls. *)
Definition carveSpec (width height : Z)
    (rec : Z → Z → Grid → Rng → Result (Grid * Rng)) (bound : nat) : Prop :=
  ∀ x z m rng c,
    gridShape width height m → interior width height x z →
    cellAt m x z = Some c → isWall c = true → (wallCount m ≤ bound)%nat →
    ∃ m' rng', rec x z m rng = Ok (m', rng') ∧
      gridShape width height m' ∧ opened width height m m' ∧
      (wallCount m' < wallCount m)%nat.

(** What a freshly generated [width] x [height] maze looks like, whichever
    generator made it: every cell records its coordinates, the start flag
    sits on (1,1) alone and the end flag on (width-2,height-2) alone, both
    are open, no overlay flag is set, and every cell of the ring is a wall. *)
Definition freshMaze (width height : Z) (m : Grid) : Prop :=
  gridShape width height m ∧
  (∀ x z c, cellAt m x z = Some c →
     isStart c = bool_decide (x = 1 ∧ z = 1) ∧
     isEnd c = bool_decide (x = width - 2 ∧ z = height - 2) ∧
     isPath c = false ∧ isVisited c = false ∧
     (onRing width height x z → isWall c = true) ∧
     ((x = 1 ∧ z = 1) ∨ (x = width - 2 ∧ z = height - 2) → isWall c = false)).

(** *** Checking a concrete grid by evaluation *)

(** [P i a] for every element [a] of [l], [i] counting up from [start]. *)
Fixpoint allFrom {A} (P : Z → A → bool) (start : Z) (l : list A) : bool :=
  match l with
  | [] => true
  | a :: l' => P start a && allFrom P (start + 1) l'
  end.

Definition allCells (P : Z → Z → MazeCell → bool) (m : Grid) : bool :=
  allFrom (λ z row, allFrom (λ x c, P x z c) 0 row) 0 m.

Definition onRingb (width height x z : Z) : bool :=
  (x =? 0) || (x =? width - 1) || (z =? 0) || (z =? height - 1).

(** [freshMaze] as a test that can be run. *)
Definition freshMazeb (width height : Z) (m : Grid) : bool :=
  (Z.of_nat (length m) =? height) &&
  forallb (λ row : list MazeCell, Z.of_nat (length row) =? width) m &&
  allCells (λ x z c,
    (cell_x c =? x) && (cell_z c =? z) &&
    Bool.eqb (isStart c) ((x =? 1) && (z =? 1)) &&
    Bool.eqb (isEnd c) ((x =? width - 2) && (z =? height - 2)) &&
    negb (isPath c) && negb (isVisited c) &&
    (if onRingb width height x z then isWall c else true) &&
    (if ((x =? 1) && (z =? 1)) || ((x =? width - 2) && (z =? height - 2))
     then negb (isWall c) else true)) m.

(** The start cell (1,1) is open and flagged, the end cell
    (width-2,height-2) is open and flagged, and every cell of the boundary
    ring is a wall. *)
Definition startEndRing (width height : Z) (m : Grid) : Prop :=
  (∃ c, cellAt m 1 1 = Some c ∧ isWall c = false ∧ isStart c = true) ∧
  (∃ c, cellAt m (width - 2) (height - 2) = Some c ∧ isWall c = false ∧ isEnd c = true) ∧
  (∀ x z, inGrid width height x z = true → onRing width height x z →
     ∃ c, cellAt m x z = Some c ∧ isWall c = true).

(** The grid of the store has the dimensions the store records. *)
Definition shapeInv (s : MazeState) : Prop :=
  gridShape (mazeWidth s) (mazeHeight s) (maze s).

(** A wall pair [(z, x)] that the guard of [layWall] lets through only if
    it names a cell: it is too large in some coordinate, or negative in
    none. *)
Definition safeWall (width height : Z) (wall : Z * Z) : Prop :=
  height ≤ wall.1 ∨ width ≤ wall.2 ∨ (0 ≤ wall.1 ∧ 0 ≤ wall.2).

(** Every cell that carries the path overlay lies on the stored path. *)
Definition pathOverlayInv (s : MazeState) : Prop :=
  ∀ x z c, cellAt (maze s) x z = Some c → isPath c = true → mkPosition x z ∈ path s.

(** The two operations that replace the visited list leave the cursor where
    it is; they keep it within the list only when the new list is long
    enough. *)
Definition cursorFits (op : Op) (s : MazeState) : Prop :=
  match op with
  | OpSetVisitedCells cells | OpStoreVisitedCells cells =>
      visualizationIndex s ≤ Z.of_nat (length cells)
  | _ => True
  end.

(** [advanceVisualization()] called [k] times in a row: the final state
    and the booleans returned, in order; it raises as soon as one call
    does. *)
Fixpoint advances (k : nat) (s : MazeState) : Result (MazeState * list bool) :=
  match k with
  | O => Ok (s, [])
  | S k' =>
      r ← advanceVisualization s;
      r' ← advances k' r.1;
      Ok (r'.1, r.2 :: r'.2)
  end.

(** Every pending timer has a handle below the next one to be issued. *)
Definition freshIds (w : World) : Prop :=
  ∀ t, t ∈ timers w → (timer_id t < nextTimerId w)%nat.

(** The event loop fires the timer [id] [k] times in a row; [None] as soon
    as the timer is not pending, the raise of the first callback that
    raises. *)
Fixpoint fireTimes (k : nat) (id : nat) (w : World) : option (Result World) :=
  match k with
  | O => Some (Ok w)
  | S k' =>
      match fireTimer id w with
      | Some (Ok w') => fireTimes k' id w'
      | other => other
      end
  end.

(** A session that has just entered the solving phase with an algorithm
    selected, step mode, and nothing scheduled yet. *)
Definition solvingWorld : World :=
  mkWorld (setVisualizationMode step (setPhase solving sampleState))
    false None None [] 0.

(** The same session once its visualization has been started. *)
Definition visualizingWorld : World :=
  mkWorld (startVisualization sampleState) true (Some 0%nat) None [] 1.

(** *** Vocabulary for the coverage of the carving *)





(** The part of a fresh maze that no overlay touches: the shape, the
    flags of start and end, the walls of the ring and the two open ends. *)
Definition mazeFrame (width height : Z) (m : Grid) : Prop :=
  gridShape width height m ∧
  (∀ x z c, cellAt m x z = Some c →
     (isStart c = true ↔ x = 1 ∧ z = 1) ∧
     (isEnd c = true ↔ x = width - 2 ∧ z = height - 2) ∧
     (onRing width height x z → isWall c = true) ∧
     ((x = 1 ∧ z = 1) ∨ (x = width - 2 ∧ z = height - 2) → isWall c = false)).

(** Functions on cells that change overlay flags only. *)
Definition overlayOnly (f : MazeCell → MazeCell) : Prop :=
  ∀ c, cell_x (f c) = cell_x c ∧ cell_z (f c) = cell_z c ∧
       isWall (f c) = isWall c ∧ isStart (f c) = isStart c ∧ isEnd (f c) = isEnd c.

(** The store's record of the maze agrees with the maze. *)
Definition frameInv (s : MazeState) : Prop :=
  mazeFrame (mazeWidth s) (mazeHeight s) (maze s) ∧
  startPos s = mkPosition 1 1 ∧
  endPos s = mkPosition (mazeWidth s - 2) (mazeHeight s - 2).

(** * Properties *)

(** ** Arrays and grids *)

Lemma bind_Ok {A B} (m : Result A) (f : A → Result B) (b : B) :
  m ≫= f = Ok b ↔ ∃ a, m = Ok a ∧ f a = Ok b.
Proof.
  destruct m; simpl; split; try (intros (? & ? & ?)); try discriminate; eauto.
  congruence.
Qed.

Lemma defined_Ok {A} (o : option A) (a : A) : defined o = Ok a ↔ o = Some a.
Proof. destruct o; simpl; split; congruence. Qed.

Lemma nthZ_Some {A} (l : list A) (i : Z) (a : A) :
  nthZ l i = Some a → 0 ≤ i < Z.of_nat (length l).
Proof.
  unfold nthZ. destruct (Z.leb_spec 0 i); [|done].
  intros Hl%lookup_lt_Some. lia.
Qed.

Lemma nthZ_is_Some {A} (l : list A) (i : Z) :
  is_Some (nthZ l i) ↔ 0 ≤ i < Z.of_nat (length l).
Proof.
  split; [intros [a Ha]; eauto using nthZ_Some|].
  intros [H0 Hlt]. unfold nthZ. destruct (Z.leb_spec 0 i); [|lia].
  apply lookup_lt_is_Some. lia.
Qed.

Lemma nthZ_fmap {A B} (f : A → B) (l : list A) (i : Z) :
  nthZ (f <$> l) i = f <$> nthZ l i.
Proof. unfold nthZ. destruct (0 <=? i); [apply list_lookup_fmap|done]. Qed.

Lemma nthZ_alter {A} (f : A → A) (l : list A) (n : nat) (i : Z) :
  nthZ (alter f n l) i = if decide (Z.of_nat n = i) then f <$> nthZ l i else nthZ l i.
Proof.
  unfold nthZ. destruct (Z.leb_spec 0 i).
  - rewrite list_lookup_alter.
    destruct (decide (n = Z.to_nat i)), (decide (Z.of_nat n = i));
      try done; try lia. by subst.
  - case_decide; [lia|done].
Qed.

Lemma cellAt_Some (m : Grid) (x z : Z) (c : MazeCell) :
  cellAt m x z = Some c ↔ ∃ row, nthZ m z = Some row ∧ nthZ row x = Some c.
Proof.
  unfold cellAt. destruct (nthZ m z) as [row|]; simpl.
  - split; [eauto|]. by intros (? & [= <-] & ?).
  - split; [done|]. by intros (? & ? & ?).
Qed.

(** The one equation that describes an in-place write. *)
Lemma cellAt_alterCell (f : MazeCell → MazeCell) (m : Grid) (x z x' z' : Z) :
  cellAt (alterCell f x z m) x' z' =
    if decide (x = x' ∧ z = z') then f <$> cellAt m x' z' else cellAt m x' z'.
Proof.
  unfold alterCell.
  destruct (Z.leb_spec 0 x), (Z.leb_spec 0 z); simpl.
  - unfold cellAt. rewrite nthZ_alter.
    destruct (decide (Z.of_nat (Z.to_nat z) = z')) as [Hz|Hz].
    + destruct (nthZ m z') as [row|]; simpl; [|by case_decide].
      rewrite nthZ_alter. repeat case_decide; try done; lia.
    + case_decide; [lia|done].
  - case_decide as H'; [|done]. destruct H' as [-> ->].
    unfold cellAt. destruct (nthZ m z') as [row|] eqn:E; [|done].
    apply nthZ_Some in E. lia.
  - case_decide as H'; [|done]. destruct H' as [-> ->].
    unfold cellAt. destruct (nthZ m z') as [row|] eqn:E; simpl; [|done].
    destruct (nthZ row x') eqn:E'; [|done]. apply nthZ_Some in E'. lia.
  - case_decide as H'; [|done]. destruct H' as [-> ->].
    unfold cellAt. destruct (nthZ m z') as [row|] eqn:E; [|done].
    apply nthZ_Some in E. lia.
Qed.

Lemma cellAt_touchCell (f : MazeCell → MazeCell) (m : Grid) (x z x' z' : Z) :
  cellAt (touchCell f m x z) x' z' =
    if decide (x = x' ∧ z = z') then f <$> cellAt m x' z' else cellAt m x' z'.
Proof.
  unfold touchCell. destruct (cellAt m x z) eqn:E; [apply cellAt_alterCell|].
  case_decide as H; [|done]. destruct H as [-> ->]. by rewrite E.
Qed.

Lemma updateCell_Ok (f : MazeCell → MazeCell) (m m' : Grid) (x z : Z) :
  updateCell f m x z = Ok m' ↔ is_Some (cellAt m x z) ∧ m' = alterCell f x z m.
Proof.
  unfold updateCell. destruct (cellAt m x z); split.
  - intros [= <-]. eauto.
  - by intros [_ ->].
  - done.
  - by intros [[? [=]] _].
Qed.

Lemma cellAt_mapGrid (f : MazeCell → MazeCell) (m : Grid) (x z : Z) :
  cellAt (mapGrid f m) x z = f <$> cellAt m x z.
Proof.
  unfold cellAt, mapGrid. rewrite nthZ_fmap.
  destruct (nthZ m z) as [row|]; simpl; [apply nthZ_fmap|done].
Qed.

Lemma mapGrid_id (m : Grid) : mapGrid (λ cell, cell) m = m.
Proof.
  unfold mapGrid. induction m as [|row m IH]; simpl; [done|].
  f_equal; [|done]. apply list_fmap_id.
Qed.

Lemma nthZ_seqZ (n i : Z) :
  nthZ (seqZ 0 n) i = if (0 <=? i) && (i <? n) then Some i else None.
Proof.
  unfold nthZ. destruct (Z.leb_spec 0 i); simpl; [|done].
  destruct (Z.ltb_spec i n).
  - rewrite lookup_seqZ_lt by lia. f_equal. lia.
  - apply lookup_seqZ_ge. lia.
Qed.

Lemma cellAt_initGrid (wall : bool) (width height x z : Z) :
  cellAt (initGrid wall width height) x z =
    if inGrid width height x z then Some (freshCell wall x z) else None.
Proof.
  unfold cellAt, initGrid, inGrid. rewrite nthZ_fmap, nthZ_seqZ.
  destruct (0 <=? z), (z <? height); simpl;
    rewrite ?andb_false_r, ?andb_true_r; try done.
  rewrite nthZ_fmap, nthZ_seqZ.
  destruct (0 <=? x), (x <? width); done.
Qed.

(** *** The shape of a grid *)

Lemma gridShape_cellAt (width height : Z) (m : Grid) (x z : Z) :
  gridShape width height m →
  is_Some (cellAt m x z) ↔ inGrid width height x z = true.
Proof.
  intros (Hh & Hw & _). unfold inGrid.
  rewrite !andb_true_iff, !Z.leb_le, !Z.ltb_lt. split.
  - intros [c (row & Hr & Hc)%cellAt_Some].
    assert (row ∈ m) as Hin.
    { unfold nthZ in Hr. destruct (0 <=? z); [|done].
      by eapply list_elem_of_lookup_2. }
    apply nthZ_Some in Hr, Hc. rewrite (Hw _ Hin) in Hc. lia.
  - intros [[[? ?] ?] ?].
    destruct (proj2 (nthZ_is_Some m z)) as [row Hr]; [lia|].
    assert (row ∈ m) as Hin.
    { unfold nthZ in Hr. destruct (0 <=? z); [|done].
      by eapply list_elem_of_lookup_2. }
    destruct (proj2 (nthZ_is_Some row x)) as [c Hc]; [rewrite (Hw _ Hin); lia|].
    exists c. apply cellAt_Some. eauto.
Qed.

Lemma keepsCoords_setIsWall b : keepsCoords (setIsWall b).
Proof. by intros []. Qed.
Lemma keepsCoords_setIsStart b : keepsCoords (setIsStart b).
Proof. by intros []. Qed.
Lemma keepsCoords_setIsEnd b : keepsCoords (setIsEnd b).
Proof. by intros []. Qed.
Lemma keepsCoords_setIsPath b : keepsCoords (setIsPath b).
Proof. by intros []. Qed.
Lemma keepsCoords_setIsVisited b : keepsCoords (setIsVisited b).
Proof. by intros []. Qed.
Lemma keepsCoords_id : keepsCoords (λ cell, cell).
Proof. by intros []. Qed.
Lemma keepsCoords_clear : keepsCoords (λ cell, setIsPath false (setIsVisited false cell)).
Proof. by intros []. Qed.

Create HintDb maze.
#[global] Hint Resolve keepsCoords_setIsWall keepsCoords_setIsStart
  keepsCoords_setIsEnd keepsCoords_setIsPath keepsCoords_setIsVisited
  keepsCoords_id keepsCoords_clear : maze.

Lemma gridShape_alterCell f width height x z m :
  keepsCoords f → gridShape width height m → gridShape width height (alterCell f x z m).
Proof.
  intros Hf (Hh & Hw & Hc). split; [|split].
  - unfold alterCell. destruct (_ && _); [by rewrite length_alter|done].
  - unfold alterCell. destruct (_ && _); [|done].
    intros row (i & Hi)%list_elem_of_lookup_1.
    rewrite list_lookup_alter in Hi. case_decide; subst.
    + destruct (m !! Z.to_nat z) as [row0|] eqn:E; [|done].
      injection Hi as <-. rewrite length_alter.
      apply Hw. by eapply list_elem_of_lookup_2.
    + apply Hw. by eapply list_elem_of_lookup_2.
  - intros x' z' c. rewrite cellAt_alterCell. case_decide.
    + destruct (cellAt m x' z') as [c0|] eqn:E; [|done].
      intros [= <-]. destruct (Hf c0) as [-> ->]. by apply Hc.
    + apply Hc.
Qed.

Lemma gridShape_touchCell f width height x z m :
  keepsCoords f → gridShape width height m → gridShape width height (touchCell f m x z).
Proof.
  intros. unfold touchCell. destruct (cellAt m x z); [|done].
  by apply gridShape_alterCell.
Qed.

Lemma gridShape_mapGrid f width height m :
  keepsCoords f → gridShape width height m → gridShape width height (mapGrid f m).
Proof.
  intros Hf (Hh & Hw & Hc). split; [|split].
  - unfold mapGrid. by rewrite length_fmap.
  - unfold mapGrid. intros row (row0 & -> & Hin)%list_elem_of_fmap.
    rewrite length_fmap. by apply Hw.
  - intros x z c. rewrite cellAt_mapGrid.
    destruct (cellAt m x z) as [c0|] eqn:E; [|done].
    intros [= <-]. destruct (Hf c0) as [-> ->]. by apply Hc.
Qed.

Lemma gridShape_initGrid wall width height :
  0 ≤ width → 0 ≤ height → gridShape width height (initGrid wall width height).
Proof.
  intros Hw Hh. split; [|split].
  - unfold initGrid. rewrite length_fmap, length_seqZ. lia.
  - unfold initGrid. intros row (z & -> & _)%list_elem_of_fmap.
    rewrite length_fmap, length_seqZ. lia.
  - intros x z c. rewrite cellAt_initGrid.
    destruct (inGrid width height x z); [|done]. by intros [= <-].
Qed.

Lemma gridShape_markCells f width height cells m :
  keepsCoords f → gridShape width height m → gridShape width height (markCells f cells m).
Proof.
  intros Hf. revert m. unfold markCells.
  induction cells as [|p cells IH]; simpl; [done|].
  intros m Hm. apply IH. by apply gridShape_touchCell.
Qed.

(** *** Overlays *)

(** Marking the cells of a list: a cell is changed exactly when its
    coordinates occur in the list. *)
Lemma cellAt_markCells (f : MazeCell → MazeCell) (cells : list Position) (m : Grid) (x z : Z) :
  (∀ c, f (f c) = f c) →
  cellAt (markCells f cells m) x z =
    (λ c, if decide (mkPosition x z ∈ cells) then f c else c) <$> cellAt m x z.
Proof.
  intros Hidem. revert m. unfold markCells.
  induction cells as [|[px pz] cells IH]; intros m; simpl.
  - destruct (cellAt m x z); simpl; [|done]. f_equal.
  - rewrite IH, cellAt_touchCell. simpl.
    destruct (cellAt m x z) as [c|]; [|by destruct (decide (px = x ∧ pz = z))].
    destruct (decide (mkPosition x z ∈ mkPosition px pz :: cells)) as [Hin|Hin];
      destruct (decide (px = x ∧ pz = z)) as [[-> ->]|Hne];
      destruct (decide (mkPosition x z ∈ cells)) as [Hin'|Hin'];
      simpl; f_equal; try done.
    + apply elem_of_cons in Hin as [[= -> ->]|?]; [naive_solver|done].
    + exfalso. apply Hin. left.
    + exfalso. apply Hin. left.
    + exfalso. apply Hin. by right.
Qed.

(** ** Overlay operations *)

Lemma cellAt_setPath (s : MazeState) (cells : list Position) (x z : Z) :
  cellAt (maze (setPath cells s)) x z =
    setIsPath (bool_decide (mkPosition x z ∈ cells)) <$> cellAt (maze s) x z.
Proof.
  simpl. rewrite cellAt_markCells by (by intros []).
  rewrite cellAt_mapGrid.
  destruct (cellAt (maze s) x z) as [c|]; simpl; [|done].
  f_equal. case_decide.
  - by rewrite bool_decide_true.
  - by rewrite bool_decide_false.
Qed.

Lemma cellAt_setVisitedCells (s : MazeState) (cells : list Position) (x z : Z) :
  cellAt (maze (setVisitedCells cells s)) x z =
    setIsVisited (bool_decide (mkPosition x z ∈ cells)) <$> cellAt (maze s) x z.
Proof.
  simpl. rewrite cellAt_markCells by (by intros []).
  rewrite cellAt_mapGrid.
  destruct (cellAt (maze s) x z) as [c|]; simpl; [|done].
  f_equal. case_decide.
  - by rewrite bool_decide_true.
  - by rewrite bool_decide_false.
Qed.

(** C2.  [setPath] and [setVisitedCells] are total (they cannot raise), and
    for every position [(x, z)], inside the grid or not, the cell found
    there afterwards is the cell found there before with only its overlay
    flag changed: the flag is [true] exactly when [(x, z)] occurs in the
    supplied list.  Positions outside the grid hold no cell before and
    after; the list is stored; the other fields of the store are kept. *)
Theorem overlay_set_exactly (s : MazeState) (cells : list Position) :
  (∀ x z,
     cellAt (maze (setPath cells s)) x z =
       setIsPath (bool_decide (mkPosition x z ∈ cells)) <$> cellAt (maze s) x z) ∧
  path (setPath cells s) = cells ∧
  visitedCells (setPath cells s) = visitedCells s ∧
  sameSession s (setPath cells s) ∧
  (∀ x z,
     cellAt (maze (setVisitedCells cells s)) x z =
       setIsVisited (bool_decide (mkPosition x z ∈ cells)) <$> cellAt (maze s) x z) ∧
  visitedCells (setVisitedCells cells s) = cells ∧
  path (setVisitedCells cells s) = path s ∧
  sameSession s (setVisitedCells cells s).
Proof.
  split_and!; try reflexivity.
  - apply cellAt_setPath.
  - done.
  - apply cellAt_setVisitedCells.
  - done.
Qed.

(** ** The moving phase *)

Lemma moveBall_true (s : MazeState) :
  pathIndex s < Z.of_nat (length (path s)) →
  (moveBall s).2 = true ∧
  pathIndex (moveBall s).1 = pathIndex s + 1 ∧
  ballPosition (moveBall s).1 = nthZ (path s) (pathIndex s) ∧
  path (moveBall s).1 = path s.
Proof.
  intros H. unfold moveBall.
  destruct (Z.ltb_spec (pathIndex s) (Z.of_nat (length (path s)))); [done|lia].
Qed.

Lemma moveBall_false (s : MazeState) :
  Z.of_nat (length (path s)) ≤ pathIndex s → moveBall s = (s, false).
Proof.
  intros H. unfold moveBall.
  destruct (Z.ltb_spec (pathIndex s) (Z.of_nat (length (path s)))); [lia|done].
Qed.

Lemma moveBalls_S (k : nat) (s : MazeState) :
  moveBalls (S k) s =
    ((moveBalls k (moveBall s).1).1, (moveBall s).2 :: (moveBalls k (moveBall s).1).2).
Proof. simpl. destruct (moveBall s) as [s1 b]. simpl. by destruct (moveBalls k s1). Qed.

Lemma moveBalls_spec (k : nat) (s : MazeState) :
  pathIndex s + Z.of_nat k ≤ Z.of_nat (length (path s)) →
  (moveBalls k s).2 = replicate k true ∧
  pathIndex (moveBalls k s).1 = pathIndex s + Z.of_nat k ∧
  path (moveBalls k s).1 = path s ∧
  ((0 < k)%nat →
   ballPosition (moveBalls k s).1 = nthZ (path s) (pathIndex s + Z.of_nat k - 1)).
Proof.
  revert s. induction k as [|k IH]; intros s Hk.
  - simpl. repeat split; [lia|lia].
  - destruct (moveBall_true s) as (Hb & Hi & Hp & Hpath); [lia|].
    destruct (IH (moveBall s).1) as (IH1 & IH2 & IH3 & IH4); [rewrite Hi, Hpath; lia|].
    rewrite moveBalls_S. cbn [fst snd]. repeat split.
    + by rewrite IH1, Hb.
    + lia.
    + congruence.
    + intros _. destruct k as [|k'].
      * cbn [moveBalls fst]. rewrite Hp. f_equal. lia.
      * rewrite IH4 by lia. rewrite Hpath, Hi. f_equal. lia.
Qed.

(** C4.  From [pathIndex = 0] and a path of [n > 0] positions, [n] calls
    of [moveBall()] all return [true] and end with [pathIndex = n] and the
    ball on [path[n-1]]; the next call returns [false] and changes nothing. *)
Theorem moveBall_walks_path (s : MazeState) :
  pathIndex s = 0 → path s ≠ [] →
  let n := length (path s) in
  let s' := (moveBalls n s).1 in
  (moveBalls n s).2 = replicate n true ∧
  pathIndex s' = Z.of_nat n ∧
  (∃ p, nthZ (path s) (Z.of_nat n - 1) = Some p ∧ ballPosition s' = Some p) ∧
  moveBall s' = (s', false).
Proof.
  intros H0 Hne n s'.
  assert (0 < n)%nat as Hn.
  { subst n. destruct (path s); [done|simpl; lia]. }
  destruct (moveBalls_spec n s) as (Hbs & Hi & Hpath & Hball); [lia|].
  fold s' in Hi, Hpath, Hball. repeat split.
  - done.
  - lia.
  - destruct (proj2 (nthZ_is_Some (path s) (Z.of_nat n - 1))) as [p Hp]; [lia|].
    exists p. split; [done|]. rewrite Hball by done. rewrite <- Hp. f_equal. lia.
  - apply moveBall_false. rewrite Hpath, Hi. lia.
Qed.

Lemma moveBall_walks_path_witness :
  pathIndex sampleState = 0 ∧ path sampleState ≠ [] ∧
  pathIndex (moveBalls 2 sampleState).1 = 2 ∧
  moveBall (moveBalls 2 sampleState).1 = ((moveBalls 2 sampleState).1, false).
Proof.
  assert (pathIndex sampleState = 0) as H0 by reflexivity.
  assert (path sampleState ≠ []) as Hne by discriminate.
  destruct (moveBall_walks_path sampleState H0 Hne) as (_ & Hi & _ & Hf).
  exact (conj H0 (conj Hne (conj Hi Hf))).
Defined.

(** C8.  [moveBall()] never changes the phase and reports exhaustion only
    through its result: it returns [false] exactly when the cursor is not
    below the length of the path, and then the store is untouched; when it
    returns [true], every field other than [ballPosition] and [pathIndex]
    is as before.  Among all store operations only [complete()] can make
    the phase [completed]. *)
Theorem moveBall_frame :
  (∀ s, phase (moveBall s).1 = phase s) ∧
  (∀ s, (moveBall s).2 = false ↔ ¬ pathIndex s < Z.of_nat (length (path s))) ∧
  (∀ s, (moveBall s).2 = false → (moveBall s).1 = s) ∧
  (∀ s, (moveBall s).2 = true →
     let s' := (moveBall s).1 in
     phase s' = phase s ∧ maze s' = maze s ∧ path s' = path s ∧
     visitedCells s' = visitedCells s ∧ stats s' = stats s ∧
     visualizationIndex s' = visualizationIndex s ∧
     selectedAlgorithm s' = selectedAlgorithm s ∧
     mazeWidth s' = mazeWidth s ∧ mazeHeight s' = mazeHeight s ∧
     startPos s' = startPos s ∧ endPos s' = endPos s ∧
     visualizationMode s' = visualizationMode s ∧ difficulty s' = difficulty s) ∧
  (∀ op s s', exec op s = Ok s' → phase s' = completed →
     phase s = completed ∨ op = OpComplete).
Proof.
  split; [|split; [|split; [|split]]].
  - intros s. unfold moveBall. by destruct (_ <? _).
  - intros s. unfold moveBall.
    destruct (Z.ltb_spec (pathIndex s) (Z.of_nat (length (path s)))); simpl.
    + split; [done|]. intros Hn. by destruct Hn.
    + split; [lia|done].
  - intros s. unfold moveBall. by destruct (_ <? _).
  - intros s. unfold moveBall. destruct (_ <? _); simpl; [|done].
    intros _. repeat split.
  - intros op s s' Hexec Hph.
    destruct op; simpl in Hexec; try (injection Hexec as <-); simpl in Hph;
      try discriminate; eauto.
    + unfold startGame in Hph. destruct (selectedAlgorithm s); eauto. discriminate.
    + apply bind_Ok in Hexec as ([s1 b] & Hadv & [= <-]).
      unfold advanceVisualization in Hadv.
      destruct (_ <? _).
      * apply bind_Ok in Hadv as (c & _ & [= <- <-]). eauto.
      * injection Hadv as <- <-. eauto.
    + left. rewrite <- Hph. unfold moveBall. by destruct (_ <? _).
    + unfold restart in Hexec. apply bind_Ok in Hexec as (r & _ & [= <-]). done.
    + unfold generateMaze in Hexec. apply bind_Ok in Hexec as (r & _ & [= <-]). eauto.
    + unfold loadPresetMaze in Hexec. apply bind_Ok in Hexec as (r & _ & [= <-]). eauto.
Qed.

Lemma moveBall_frame_witness :
  (moveBall sampleState).2 = true ∧
  maze (moveBall sampleState).1 = maze sampleState ∧
  phase (moveBall sampleState).1 = phase sampleState.
Proof.
  assert ((moveBall sampleState).2 = true) as Ht by reflexivity.
  destruct moveBall_frame as (_ & _ & _ & Hframe & _).
  destruct (Hframe sampleState Ht) as (Hph & Hmaze & _).
  exact (conj Ht (conj Hmaze Hph)).
Defined.

(** ** The randomized generator *)

Lemma sum_list_with_alter {A} (g : A → nat) (f : A → A) (l : list A) (i : nat) (a : A) :
  l !! i = Some a →
  (sum_list_with g (alter f i l) + g a = sum_list_with g l + g (f a))%nat.
Proof.
  revert i. induction l as [|b l IH]; intros [|i] Hi; simplify_eq/=.
  - lia.
  - specialize (IH i Hi). lia.
Qed.

Lemma wallCount_alterCell (f : MazeCell → MazeCell) (m : Grid) (x z : Z) (c : MazeCell) :
  cellAt m x z = Some c →
  (wallCount (alterCell f x z m) + (if isWall c then 1 else 0) =
   wallCount m + (if isWall (f c) then 1 else 0))%nat.
Proof.
  intros (row & Hr & Hc)%cellAt_Some. unfold alterCell, wallCount.
  pose proof (nthZ_Some _ _ _ Hr). pose proof (nthZ_Some _ _ _ Hc).
  unfold nthZ in Hr, Hc.
  destruct (Z.leb_spec 0 x), (Z.leb_spec 0 z); try lia. simpl.
  pose proof (sum_list_with_alter
    (sum_list_with (λ c, if isWall c then 1%nat else 0%nat))
    (alter f (Z.to_nat x)) m _ _ Hr) as Hrows.
  pose proof (sum_list_with_alter
    (λ c, if isWall c then 1%nat else 0%nat) f row _ _ Hc) as Hcells.
  simpl in Hcells. lia.
Qed.

Lemma wallCount_open_le (m : Grid) (x z : Z) :
  (wallCount (alterCell (setIsWall false) x z m) ≤ wallCount m)%nat.
Proof.
  destruct (cellAt m x z) as [c|] eqn:E.
  - pose proof (wallCount_alterCell (setIsWall false) m x z c E) as H.
    simpl in H. lia.
  - unfold alterCell. destruct (Z.leb_spec 0 x), (Z.leb_spec 0 z); simpl; try done.
    replace (alter (alter (setIsWall false) (Z.to_nat x)) (Z.to_nat z) m) with m; [done|].
    apply list_eq. intros i. rewrite list_lookup_alter. case_decide; [|done]. subst.
    destruct (m !! Z.to_nat z) as [row|] eqn:Hr; [|done]. simpl. f_equal.
    apply list_eq. intros j. rewrite list_lookup_alter. case_decide; [|done]. subst.
    destruct (row !! Z.to_nat x) as [c|] eqn:Hc; [|done].
    exfalso. unfold cellAt, nthZ in E.
    destruct (Z.leb_spec 0 z); [|lia]. rewrite Hr in E. simpl in E.
    destruct (Z.leb_spec 0 x); [|lia]. by rewrite Hc in E.
Qed.

Lemma wallCount_open_lt (m : Grid) (x z : Z) (c : MazeCell) :
  cellAt m x z = Some c → isWall c = true →
  (wallCount (alterCell (setIsWall false) x z m) < wallCount m)%nat.
Proof.
  intros E Hw. pose proof (wallCount_alterCell (setIsWall false) m x z c E) as H.
  rewrite Hw in H. simpl in H. lia.
Qed.

Lemma sum_list_with_le_length {A} (g : A → nat) (l : list A) :
  (∀ a, g a ≤ 1)%nat → (sum_list_with g l ≤ length l)%nat.
Proof.
  intros Hg. induction l as [|a l IH]; simpl; [done|]. specialize (Hg a). lia.
Qed.

Lemma wallCount_le_area (width height : Z) (m : Grid) :
  gridShape width height m → (wallCount m ≤ Z.to_nat (width * height))%nat.
Proof.
  intros (Hh & Hw & _). subst height. unfold wallCount.
  induction m as [|row m IH]; simpl; [lia|].
  assert (Z.of_nat (length row) = width) as Hrow by (apply Hw; left).
  assert (sum_list_with
            (sum_list_with (λ c, if isWall c then 1%nat else 0%nat)) m
          ≤ Z.to_nat (width * Z.of_nat (length m)))%nat as IH'.
  { apply IH. intros r Hr. apply Hw. by right. }
  pose proof (sum_list_with_le_length
    (λ c, if isWall c then 1%nat else 0%nat) row) as Hle.
  assert (sum_list_with (λ c, if isWall c then 1%nat else 0%nat) row
          ≤ length row)%nat by (apply Hle; intros []; simpl; destruct isWall0; lia).
  nia.
Qed.

Lemma opened_refl width height m : opened width height m m.
Proof. intros x z. by left. Qed.

Lemma opened_trans width height m1 m2 m3 :
  opened width height m1 m2 → opened width height m2 m3 → opened width height m1 m3.
Proof.
  intros H12 H23 x z.
  destruct (H12 x z) as [E12|[Hi E12]], (H23 x z) as [E23|[Hi' E23]].
  - left. congruence.
  - right. split; [done|]. congruence.
  - right. split; [done|]. congruence.
  - right. split; [done|]. rewrite E23, E12.
    by destruct (cellAt m1 x z) as [[]|].
Qed.

Lemma opened_alterCell width height m x z :
  interior width height x z →
  opened width height m (alterCell (setIsWall false) x z m).
Proof.
  intros Hi x' z'. rewrite cellAt_alterCell.
  case_decide as H; [|by left]. destruct H as [-> ->]. by right.
Qed.

Lemma Forall_swap {A} (P : A → Prop) (i j : nat) (l : list A) :
  Forall P l → Forall P (swap i j l).
Proof.
  intros H. unfold swap.
  destruct (l !! i) as [a|] eqn:Ea; [|done].
  destruct (l !! j) as [b|] eqn:Eb; [|done].
  apply Forall_insert; [apply Forall_insert; [done|]|].
  - by eapply (Forall_lookup_1 P l j).
  - by eapply (Forall_lookup_1 P l i).
Qed.

Lemma Forall_shuffle {A} (P : A → Prop) (i : nat) (l : list A) (rng : Rng) :
  Forall P l → Forall P (shuffle i l rng).1.
Proof.
  revert l rng. induction i as [|i IH]; intros l rng H; simpl; [done|].
  destruct (randomBelow (S (S i)) rng) as [j rng'].
  apply IH. by apply Forall_swap.
Qed.

Lemma directions_are_directions : Forall isDirection directions.
Proof. repeat constructor; unfold isDirection; simpl; lia. Qed.

Lemma interior_inGrid width height x z :
  interior width height x z → inGrid width height x z = true.
Proof.
  intros [? ?]. unfold inGrid.
  rewrite !andb_true_iff, !Z.leb_le, !Z.ltb_lt. lia.
Qed.

Lemma interior_cell width height m x z :
  gridShape width height m → interior width height x z → is_Some (cellAt m x z).
Proof. intros Hm Hi. apply (gridShape_cellAt _ _ _ _ _ Hm). by apply interior_inGrid. Qed.

Section CarveProps.
Variables width height : Z.

Lemma carveDir_spec rec bound x z m rng d :
  carveSpec width height rec bound →
  interior width height x z → isDirection d →
  gridShape width height m → (wallCount m ≤ bound)%nat →
  ∃ m' rng', carveDir width height rec x z (m, rng) d = Ok (m', rng') ∧
    gridShape width height m' ∧ opened width height m m' ∧
    (wallCount m' ≤ wallCount m)%nat.
Proof.
  intros Hrec Hxz Hd Hm Hbound. unfold carveDir.
  destruct ((0 <? x + dx d) && (x + dx d <? width - 1) &&
            (0 <? z + dz d) && (z + dz d <? height - 1)) eqn:Hin;
    [|exists m, rng; split_and!; auto using opened_refl].
  rewrite !andb_true_iff, !Z.ltb_lt in Hin.
  assert (interior width height (x + dx d) (z + dz d)) as Hnew
    by (unfold interior; lia).
  destruct (interior_cell _ _ m _ _ Hm Hnew) as [cell Hcell].
  rewrite Hcell. simpl.
  destruct (isWall cell) eqn:Hwall;
    [|exists m, rng; split_and!; auto using opened_refl].
  assert (interior width height (x + dx d / 2) (z + dz d / 2) ∧
          ¬ (x + dx d / 2 = x + dx d ∧ z + dz d / 2 = z + dz d)) as [Hmid Hne].
  { destruct d as [ddx ddz]. unfold isDirection, interior in *. simpl in *.
    destruct Hd as [[-> [-> | ->]] | [-> [-> | ->]]];
      change (0 / 2) with 0; change (-2 / 2) with (-1); change (2 / 2) with 1;
      lia. }
  destruct (interior_cell _ _ m _ _ Hm Hmid) as [cmid Hcmid].
  unfold updateCell. rewrite Hcmid. simpl.
  set (m1 := alterCell (setIsWall false) (x + dx d / 2) (z + dz d / 2) m).
  assert (gridShape width height m1) as Hm1
    by (apply gridShape_alterCell; auto with maze).
  assert (cellAt m1 (x + dx d) (z + dz d) = Some cell) as Hcell1.
  { unfold m1. rewrite cellAt_alterCell. by rewrite decide_False. }
  assert (wallCount m1 ≤ wallCount m)%nat as Hle by apply wallCount_open_le.
  destruct (Hrec _ _ m1 rng cell Hm1 Hnew Hcell1 Hwall) as (m' & rng' & -> & ? & ? & ?);
    [lia|].
  exists m', rng'. split_and!; [done|done| |lia].
  eapply opened_trans; [|done]. by apply opened_alterCell.
Qed.

Lemma carve_loop_spec rec bound x z dirs m rng :
  carveSpec width height rec bound →
  interior width height x z → Forall isDirection dirs →
  gridShape width height m → (wallCount m ≤ bound)%nat →
  ∃ m' rng', forEachM (carveDir width height rec x z) (m, rng) dirs = Ok (m', rng') ∧
    gridShape width height m' ∧ opened width height m m' ∧
    (wallCount m' ≤ wallCount m)%nat.
Proof.
  intros Hrec Hxz Hdirs. revert m rng.
  induction Hdirs as [|d dirs Hd _ IH]; intros m rng Hm Hbound; cbn [forEachM].
  - exists m, rng. split_and!; auto using opened_refl.
  - destruct (carveDir_spec rec bound x z m rng d) as (m1 & rng1 & -> & ? & ? & ?);
      try done.
    cbn [mbind Result_bind]. destruct (IH m1 rng1) as (m' & rng' & -> & ? & ? & ?); [done|lia|].
    exists m', rng'. split_and!; [done|done| |lia]. by eapply opened_trans.
Qed.

(** The recursion returns whenever its fuel is at least the number of
    walls: every call opens the wall cell it is called on. *)
Lemma carve_spec fuel : carveSpec width height (carve width height fuel) fuel.
Proof.
  induction fuel as [|fuel IH]; intros x z m rng c Hm Hxz Hc Hwall Hbound.
  - pose proof (wallCount_open_lt m x z c Hc Hwall). lia.
  - cbn [carve]. unfold updateCell at 1. rewrite Hc. cbn [mbind Result_bind].
    change (length directions - 1)%nat with 3%nat.
    set (m1 := alterCell (setIsWall false) x z m).
    assert (wallCount m1 < wallCount m)%nat as Hlt
      by (by eapply wallCount_open_lt).
    destruct (shuffle 3 directions rng) as [dirs rng1] eqn:Hsh.
    assert (Forall isDirection dirs) as Hdirs.
    { change dirs with (dirs, rng1).1. rewrite <- Hsh.
      apply Forall_shuffle, directions_are_directions. }
    destruct (carve_loop_spec (carve width height fuel) fuel x z dirs m1 rng1)
      as (m' & rng' & -> & ? & ? & ?); try done.
    + apply gridShape_alterCell; auto with maze.
    + lia.
    + exists m', rng'. split_and!; [done|done| |lia].
      eapply opened_trans; [|done]. by apply opened_alterCell.
Qed.
End CarveProps.

(** More fuel never changes a result: the fuel only cuts the recursion
    off, it does not steer it. *)
Lemma forEachM_mono {S A} (f g : S → A → Result S) (l : list A) (s r : S) :
  (∀ s a r, f s a = Ok r → g s a = Ok r) →
  forEachM f s l = Ok r → forEachM g s l = Ok r.
Proof.
  intros Hfg. revert s. induction l as [|a l IH]; intros s; cbn [forEachM]; [done|].
  intros (s1 & H1 & Hrest)%bind_Ok. rewrite (Hfg _ _ _ H1). cbn. by apply IH.
Qed.

Lemma carveDir_mono width height rec rec' x z st d r :
  (∀ x z m rng r, rec x z m rng = Ok r → rec' x z m rng = Ok r) →
  carveDir width height rec x z st d = Ok r →
  carveDir width height rec' x z st d = Ok r.
Proof.
  intros Hrec. unfold carveDir. destruct st as [m rng].
  destruct (_ && _); [|done].
  destruct (cellAt m (x + dx d) (z + dz d)) as [cell|]; [|done]. cbn.
  destruct (isWall cell); [|done].
  destruct (updateCell _ _ _ _); [|done..]. cbn. apply Hrec.
Qed.

Lemma carve_fuel_mono width height fuel fuel' x z m rng r :
  (fuel ≤ fuel')%nat →
  carve width height fuel x z m rng = Ok r →
  carve width height fuel' x z m rng = Ok r.
Proof.
  revert fuel' x z m rng r.
  induction fuel as [|fuel IH]; intros fuel' x z m rng r Hle; [done|].
  destruct fuel' as [|fuel']; [lia|]. cbn [carve].
  destruct (updateCell _ _ _ _); [|done..]. cbn [mbind Result_bind].
  destruct (shuffle _ _ _) as [dirs rng1].
  apply forEachM_mono. intros st d r'. apply carveDir_mono.
  intros x' z' m' rng' r''. apply IH. lia.
Qed.

Lemma updateCell_inGrid f width height m x z :
  gridShape width height m → inGrid width height x z = true →
  updateCell f m x z = Ok (alterCell f x z m).
Proof.
  intros Hm Hin. apply updateCell_Ok. split; [|done].
  by apply (gridShape_cellAt _ _ _ _ _ Hm).
Qed.

#[global] Hint Resolve gridShape_alterCell gridShape_touchCell gridShape_mapGrid
  gridShape_markCells : maze.

(** The cells of a carved grid: the fresh wall cell, opened or not, and
    never opened outside the interior. *)
Lemma opened_initGrid width height m x z c :
  opened width height (initGrid true width height) m →
  cellAt m x z = Some c →
  (c = freshCell true x z ∨ c = freshCell false x z) ∧
  (¬ interior width height x z → c = freshCell true x z).
Proof.
  intros Hop Hc. destruct (Hop x z) as [E|[Hi E]];
    rewrite Hc, cellAt_initGrid in E;
    destruct (inGrid width height x z); try discriminate;
    injection E as ->; split; eauto; by intros [].
Qed.

(** [generateRandomMaze] returns for every grid of at least 4 x 4 cells and
    every sequence of random draws, and what it returns is a fresh maze
    whose two interior neighbours of the end cell are open. *)
Lemma generateRandomMaze_spec (width height : Z) (rng : Rng) :
  4 ≤ width → 4 ≤ height →
  ∃ r, generateRandomMaze width height rng = Ok r ∧
    rm_start r = mkPosition 1 1 ∧
    rm_end r = mkPosition (width - 2) (height - 2) ∧
    freshMaze width height (rm_maze r) ∧
    (∃ c, cellAt (rm_maze r) (width - 2) (height - 3) = Some c ∧ isWall c = false) ∧
    (∃ c, cellAt (rm_maze r) (width - 3) (height - 2) = Some c ∧ isWall c = false).
Proof.
  intros Hw Hh. unfold generateRandomMaze.
  assert (gridShape width height (initGrid true width height)) as Hinit
    by (apply gridShape_initGrid; lia).
  assert (interior width height 1 1) as Hstart by (unfold interior; lia).
  destruct (carve_spec width height (Z.to_nat (width * height)) 1 1
              (initGrid true width height) rng (freshCell true 1 1))
    as (mc & rng' & -> & Hmc & Hop & _); try done.
  { rewrite cellAt_initGrid. by rewrite interior_inGrid. }
  { by apply wallCount_le_area. }
  cbn [mbind Result_bind pos_x pos_z].
  assert (inGrid width height 1 1 = true) as Hin1 by (by apply interior_inGrid).
  assert (inGrid width height (width - 2) (height - 2) = true) as Hin2
    by (apply interior_inGrid; unfold interior; lia).
  set (m1 := alterCell (setIsStart true) 1 1 mc).
  set (m2 := alterCell (setIsWall false) 1 1 m1).
  set (m3 := alterCell (setIsEnd true) (width - 2) (height - 2) m2).
  set (m4 := alterCell (setIsWall false) (width - 2) (height - 2) m3).
  assert (gridShape width height m1) as Hm1 by (unfold m1; auto with maze).
  assert (gridShape width height m2) as Hm2 by (unfold m2; auto with maze).
  assert (gridShape width height m3) as Hm3 by (unfold m3; auto with maze).
  assert (gridShape width height m4) as Hm4 by (unfold m4; auto with maze).
  rewrite (updateCell_inGrid _ width height mc) by done.
  cbn [mbind Result_bind]. fold m1.
  rewrite (updateCell_inGrid _ width height m1) by done.
  cbn [mbind Result_bind]. fold m2.
  rewrite (updateCell_inGrid _ width height m2) by done.
  cbn [mbind Result_bind]. fold m3.
  rewrite (updateCell_inGrid _ width height m3) by done.
  cbn [mbind Result_bind]. fold m4.
  eexists. split; [reflexivity|]. cbn [rm_start rm_end rm_maze].
  set (m5 := touchCell (setIsWall false) m4 (width - 2) (height - 2 - 1)).
  set (m6 := touchCell (setIsWall false) m5 (width - 2 - 1) (height - 2)).
  assert (∀ x z, cellAt m6 x z =
    (λ c, mkCell (cell_x c) (cell_z c)
       (isWall c && negb (bool_decide
          ((x = 1 ∧ z = 1) ∨ (x = width - 2 ∧ z = height - 2) ∨
           (x = width - 2 ∧ z = height - 3) ∨ (x = width - 3 ∧ z = height - 2))))
       (isStart c || bool_decide (x = 1 ∧ z = 1))
       (isEnd c || bool_decide (x = width - 2 ∧ z = height - 2))
       (isPath c) (isVisited c)) <$> cellAt mc x z) as Hcell.
  { intros x z. unfold m6, m5, m4, m3, m2, m1.
    rewrite !cellAt_touchCell, !cellAt_alterCell.
    destruct (cellAt mc x z) as [[cx cz w st en pa vi]|].
    2:{ repeat match goal with
        | |- context [decide (?a = x ∧ ?b = z)] => destruct (decide (a = x ∧ b = z))
        end; done. }
    repeat match goal with
    | |- context [decide (?a = x ∧ ?b = z)] =>
        destruct (decide (a = x ∧ b = z)) as [[? ?]|?]
    end;
      try (exfalso; lia);
      simpl; f_equal; unfold setIsWall, setIsStart, setIsEnd; simpl; f_equal;
      repeat match goal with
      | |- context [bool_decide ?P] =>
          first [ rewrite (bool_decide_true P) by lia
                | rewrite (bool_decide_false P) by lia ]
      end;
      rewrite ?andb_true_r, ?andb_false_r, ?orb_true_r, ?orb_false_r; done. }
  split; [done|]. split; [done|]. split; [split|split].
  - unfold m6, m5. auto with maze.
  - intros x z c. rewrite Hcell.
    destruct (cellAt mc x z) as [c0|] eqn:E0; [|done]. intros [= <-]. simpl.
    destruct (opened_initGrid _ _ _ _ _ _ Hop E0) as [Hc0 Hring].
    split_and!.
    + destruct Hc0 as [-> | ->]; done.
    + destruct Hc0 as [-> | ->]; done.
    + destruct Hc0 as [-> | ->]; done.
    + destruct Hc0 as [-> | ->]; done.
    + intros Hon. rewrite Hring by (unfold onRing, interior in *; lia). simpl.
      rewrite bool_decide_false; [done|]. unfold onRing in Hon. lia.
    + intros Hse. rewrite bool_decide_true by tauto. apply andb_false_r.
  - destruct (interior_cell width height mc (width - 2) (height - 3) Hmc) as [c0 E0];
      [unfold interior; lia|].
    eexists. rewrite Hcell, E0. split; [reflexivity|]. simpl.
    rewrite bool_decide_true by lia. apply andb_false_r.
  - destruct (interior_cell width height mc (width - 3) (height - 2) Hmc) as [c0 E0];
      [unfold interior; lia|].
    eexists. rewrite Hcell, E0. split; [reflexivity|]. simpl.
    rewrite bool_decide_true by lia. apply andb_false_r.
Qed.

(** ** The preset loader *)

Lemma allFrom_lookup {A} (P : Z → A → bool) (start : Z) (l : list A) (n : nat) (a : A) :
  allFrom P start l = true → l !! n = Some a → P (start + Z.of_nat n) a = true.
Proof.
  revert start n. induction l as [|b l IH]; intros start [|n] Hall Hn;
    simplify_eq/=; apply andb_true_iff in Hall as [Hb Hl].
  - by replace (start + Z.of_nat 0) with start by lia.
  - replace (start + Z.of_nat (S n)) with (start + 1 + Z.of_nat n) by lia.
    by apply IH.
Qed.

Lemma allCells_cellAt (P : Z → Z → MazeCell → bool) (m : Grid) (x z : Z) (c : MazeCell) :
  allCells P m = true → cellAt m x z = Some c → P x z c = true.
Proof.
  intros Hall (row & Hr & Hc)%cellAt_Some.
  pose proof (nthZ_Some _ _ _ Hr). pose proof (nthZ_Some _ _ _ Hc).
  unfold nthZ in Hr, Hc.
  destruct (Z.leb_spec 0 z); [|lia]. destruct (Z.leb_spec 0 x); [|lia].
  pose proof (allFrom_lookup _ _ _ _ _ Hall Hr) as Hrow. simpl in Hrow.
  pose proof (allFrom_lookup _ _ _ _ _ Hrow Hc) as Hcell. simpl in Hcell.
  by rewrite !Z2Nat.id in Hcell by lia.
Qed.

Lemma freshMazeb_sound (width height : Z) (m : Grid) :
  freshMazeb width height m = true → freshMaze width height m.
Proof.
  unfold freshMazeb. rewrite !andb_true_iff. intros [[Hlen Hrows] Hcells].
  assert (∀ x z c, cellAt m x z = Some c →
    cell_x c = x ∧ cell_z c = z ∧
    isStart c = bool_decide (x = 1 ∧ z = 1) ∧
    isEnd c = bool_decide (x = width - 2 ∧ z = height - 2) ∧
    isPath c = false ∧ isVisited c = false ∧
    (onRing width height x z → isWall c = true) ∧
    ((x = 1 ∧ z = 1) ∨ (x = width - 2 ∧ z = height - 2) → isWall c = false)) as H.
  { intros x z c Hc.
    pose proof (allCells_cellAt _ _ _ _ _ Hcells Hc) as Hp. simpl in Hp.
    rewrite !andb_true_iff, !Z.eqb_eq, !negb_true_iff in Hp.
    destruct Hp as [[[[[[[Hx Hz] Hst] Hen] Hpa] Hvi] Hring] Hopen].
    apply Bool.eqb_prop in Hst, Hen.
    split_and!; try done.
    - rewrite Hst. destruct (Z.eqb_spec x 1), (Z.eqb_spec z 1); simpl;
        by rewrite ?bool_decide_true, ?bool_decide_false by lia.
    - rewrite Hen. destruct (Z.eqb_spec x (width - 2)), (Z.eqb_spec z (height - 2));
        simpl; by rewrite ?bool_decide_true, ?bool_decide_false by lia.
    - intros Hon. unfold onRing in Hon. unfold onRingb in Hring.
      destruct (Z.eqb_spec x 0), (Z.eqb_spec x (width - 1)),
        (Z.eqb_spec z 0), (Z.eqb_spec z (height - 1)); simpl in Hring; try done; lia.
    - intros Hse.
      destruct (Z.eqb_spec x 1), (Z.eqb_spec z 1),
        (Z.eqb_spec x (width - 2)), (Z.eqb_spec z (height - 2));
        simpl in Hopen; rewrite ?negb_true_iff in Hopen; try done; lia. }
  split; [split; [|split]|].
  - by apply Z.eqb_eq.
  - intros row Hin. apply Z.eqb_eq.
    rewrite forallb_forall in Hrows. apply Hrows. by apply list_elem_of_In.
  - intros x z c Hc. destruct (H x z c Hc) as (? & ? & _). done.
  - intros x z c Hc. destruct (H x z c Hc) as (_ & _ & ?). done.
Qed.

(** The catalog entry that [createPresetMaze] picks for a non-negative
    index is the one at [presetIndex mod 3], and the maze built from it is a
    fresh 15 x 15 maze. *)
Lemma createPresetMaze_nonneg (presetIndex : Z) :
  0 ≤ presetIndex →
  ∃ preset r,
    nthZ PRESET_MAZES (presetIndex `mod` 3) = Some preset ∧
    buildPresetMaze preset = Ok r ∧
    createPresetMaze presetIndex = Ok r ∧
    pm_width r = 15 ∧ pm_height r = 15 ∧
    pm_start r = mkPosition 1 1 ∧ pm_end r = mkPosition 13 13 ∧
    freshMaze 15 15 (pm_maze r).
Proof.
  intros Hi. unfold createPresetMaze.
  change (Z.of_nat (length PRESET_MAZES)) with 3.
  rewrite Z.rem_mod_nonneg by lia.
  assert (presetIndex `mod` 3 = 0 ∨ presetIndex `mod` 3 = 1 ∨ presetIndex `mod` 3 = 2)
    as [-> | [-> | ->]] by (pose proof (Z.mod_pos_bound presetIndex 3); lia).
  all: eexists _, _; split; [reflexivity|]; split; [vm_compute; reflexivity|];
    split; [vm_compute; reflexivity|];
    split_and!; try reflexivity; apply freshMazeb_sound; vm_compute; reflexivity.
Qed.

(** A negative index that is not a multiple of 3 has a negative remainder,
    there is no catalog entry at it, and the destructuring raises. *)
Lemma createPresetMaze_negative (presetIndex : Z) :
  presetIndex < 0 → presetIndex `rem` 3 ≠ 0 →
  createPresetMaze presetIndex = TypeError.
Proof.
  intros Hneg Hrem. unfold createPresetMaze.
  change (Z.of_nat (length PRESET_MAZES)) with 3.
  pose proof (Z.rem_nonpos presetIndex 3) as Hb.
  unfold nthZ. destruct (Z.leb_spec 0 (presetIndex `rem` 3)); [lia|done].
Qed.

(** ** Generated mazes *)

Lemma freshMaze_startEndRing (width height : Z) (m : Grid) :
  3 ≤ width → 3 ≤ height → freshMaze width height m → startEndRing width height m.
Proof.
  intros Hw Hh [Hshape Hcells]. split_and!.
  - destruct (proj2 (gridShape_cellAt _ _ m 1 1 Hshape)) as [c Hc].
    { unfold inGrid. rewrite !andb_true_iff, !Z.leb_le, !Z.ltb_lt. lia. }
    exists c. destruct (Hcells _ _ _ Hc) as (Hst & _ & _ & _ & _ & Hopen).
    split_and!; [done|tauto|]. rewrite Hst. by apply bool_decide_true.
  - destruct (proj2 (gridShape_cellAt _ _ m (width - 2) (height - 2) Hshape)) as [c Hc].
    { unfold inGrid. rewrite !andb_true_iff, !Z.leb_le, !Z.ltb_lt. lia. }
    exists c. destruct (Hcells _ _ _ Hc) as (_ & Hen & _ & _ & _ & Hopen).
    split_and!; [done|tauto|]. rewrite Hen. by apply bool_decide_true.
  - intros x z Hin Hon.
    destruct (proj2 (gridShape_cellAt _ _ m x z Hshape) Hin) as [c Hc].
    exists c. destruct (Hcells _ _ _ Hc) as (_ & _ & _ & _ & Hring & _). auto.
Qed.

(** C1.  Both generators return, and the maze they return has the start
    cell (1,1) open and flagged [isStart], the end cell (width-2,height-2)
    open and flagged [isEnd], and a wall on every cell of the boundary
    ring: [generateRandomMaze] for odd sizes from 11 and any random draws,
    [createPresetMaze] for any index from 0 (each catalog entry). *)
Theorem generators_start_end_ring :
  (∀ width height rng,
     11 ≤ width → 11 ≤ height → Z.odd width = true → Z.odd height = true →
     ∃ r, generateRandomMaze width height rng = Ok r ∧
       rm_start r = mkPosition 1 1 ∧
       rm_end r = mkPosition (width - 2) (height - 2) ∧
       startEndRing width height (rm_maze r)) ∧
  (∀ presetIndex, 0 ≤ presetIndex →
     ∃ r, createPresetMaze presetIndex = Ok r ∧
       pm_start r = mkPosition 1 1 ∧
       pm_end r = mkPosition (pm_width r - 2) (pm_height r - 2) ∧
       startEndRing (pm_width r) (pm_height r) (pm_maze r)).
Proof.
  split.
  - intros width height rng Hw Hh _ _.
    destruct (generateRandomMaze_spec width height rng) as (r & Hr & Hs & He & Hf & _);
      [lia|lia|].
    exists r. split_and!; try done. apply freshMaze_startEndRing; [lia|lia|done].
  - intros presetIndex Hi.
    destruct (createPresetMaze_nonneg presetIndex Hi)
      as (preset & r & _ & _ & Hr & Hw & Hh & Hs & He & Hf).
    exists r. rewrite Hw, Hh. split_and!; try done.
    apply freshMaze_startEndRing; [lia|lia|done].
Qed.

Lemma generators_start_end_ring_witness :
  (∃ r, generateRandomMaze 11 11 [3; 1; 4; 1; 5; 9; 2; 6]%nat = Ok r ∧
        startEndRing 11 11 (rm_maze r)) ∧
  (∃ r, createPresetMaze 1 = Ok r ∧
        startEndRing (pm_width r) (pm_height r) (pm_maze r)).
Proof.
  destruct generators_start_end_ring as [Hrandom Hpreset]. split.
  - destruct (Hrandom 11 11 [3; 1; 4; 1; 5; 9; 2; 6]%nat)
      as (r & Hr & _ & _ & Hring); [lia|lia|reflexivity|reflexivity|].
    exists r. by split.
  - destruct (Hpreset 1) as (r & Hr & _ & _ & Hring); [lia|].
    exists r. by split.
Defined.

(** C9.  For odd sizes from 11, [generateRandomMaze] returns a maze in
    which both interior neighbours of the end cell are open: the one to the
    north, (end.x, end.z - 1), and the one to the west, (end.x - 1, end.z). *)
Theorem generateRandomMaze_opens_both_end_neighbours (width height : Z) (rng : Rng) :
  11 ≤ width → 11 ≤ height → Z.odd width = true → Z.odd height = true →
  ∃ r, generateRandomMaze width height rng = Ok r ∧
    (∃ c, cellAt (rm_maze r) (pos_x (rm_end r)) (pos_z (rm_end r) - 1) = Some c ∧
          isWall c = false) ∧
    (∃ c, cellAt (rm_maze r) (pos_x (rm_end r) - 1) (pos_z (rm_end r)) = Some c ∧
          isWall c = false).
Proof.
  intros Hw Hh _ _.
  destruct (generateRandomMaze_spec width height rng)
    as (r & Hr & _ & He & _ & Hnorth & Hwest); [lia|lia|].
  exists r. rewrite He. simpl.
  replace (height - 2 - 1) with (height - 3) by lia.
  replace (width - 2 - 1) with (width - 3) by lia. done.
Qed.

Lemma generateRandomMaze_opens_both_end_neighbours_witness :
  ∃ r, generateRandomMaze 11 11 [2; 7; 1; 8; 2; 8]%nat = Ok r ∧
    (∃ c, cellAt (rm_maze r) (pos_x (rm_end r)) (pos_z (rm_end r) - 1) = Some c ∧
          isWall c = false) ∧
    (∃ c, cellAt (rm_maze r) (pos_x (rm_end r) - 1) (pos_z (rm_end r)) = Some c ∧
          isWall c = false).
Proof.
  apply (generateRandomMaze_opens_both_end_neighbours 11 11 [2; 7; 1; 8; 2; 8]%nat);
    [lia|lia|reflexivity|reflexivity].
Defined.

(** Whatever index [createPresetMaze] returns for, it returns a fresh
    15 x 15 maze of the catalog. *)
Lemma createPresetMaze_Ok (presetIndex : Z) (r : PresetMaze) :
  createPresetMaze presetIndex = Ok r →
  pm_width r = 15 ∧ pm_height r = 15 ∧
  pm_start r = mkPosition 1 1 ∧ pm_end r = mkPosition 13 13 ∧
  freshMaze 15 15 (pm_maze r).
Proof.
  unfold createPresetMaze. change (Z.of_nat (length PRESET_MAZES)) with 3.
  pose proof (Z.rem_bound_abs presetIndex 3) as Hb.
  destruct (Z.leb_spec 0 (presetIndex `rem` 3)) as [Hk|Hk].
  - assert (presetIndex `rem` 3 = 0 ∨ presetIndex `rem` 3 = 1 ∨ presetIndex `rem` 3 = 2)
      as [-> | [-> | ->]] by lia.
    all: intros H; vm_compute in H; injection H as <-;
      split_and!; try reflexivity; apply freshMazeb_sound; vm_compute; reflexivity.
  - unfold nthZ. destruct (Z.leb_spec 0 (presetIndex `rem` 3)); [lia|done].
Qed.

(** ** The shape of the store's grid *)

Lemma shapeInv_exec (op : Op) (s s' : MazeState) :
  shapeInv s → exec op s = Ok s' → shapeInv s'.
Proof.
  unfold shapeInv. intros Hs Hexec.
  destruct op; simpl in Hexec; try (injection Hexec as <-); simpl; auto with maze.
  - unfold startGame. by destruct (selectedAlgorithm s).
  - apply bind_Ok in Hexec as ([s1 b] & Hadv & [= <-]).
    unfold advanceVisualization in Hadv. destruct (_ <? _).
    + apply bind_Ok in Hadv as (c & _ & [= <- <-]). simpl. auto with maze.
    + injection Hadv as <- <-. simpl. auto with maze.
  - unfold moveBall. by destruct (_ <? _).
  - unfold restart in Hexec. apply bind_Ok in Hexec as (r & Hr & [= <-]). simpl.
    destruct (generateRandomMaze_spec (DIFFICULTY_SIZES (difficulty s)).1
                (DIFFICULTY_SIZES (difficulty s)).2 rng)
      as (r' & Hr' & _ & _ & [Hshape _] & _);
      [destruct (difficulty s); simpl; lia..|].
    rewrite Hr in Hr'. by injection Hr' as <-.
  - unfold generateMaze in Hexec. apply bind_Ok in Hexec as (r & Hr & [= <-]). simpl.
    destruct (generateRandomMaze_spec (DIFFICULTY_SIZES (difficulty s)).1
                (DIFFICULTY_SIZES (difficulty s)).2 rng)
      as (r' & Hr' & _ & _ & [Hshape _] & _);
      [destruct (difficulty s); simpl; lia..|].
    rewrite Hr in Hr'. by injection Hr' as <-.
  - unfold loadPresetMaze in Hexec. apply bind_Ok in Hexec as (r & Hr & [= <-]). simpl.
    destruct (createPresetMaze_Ok _ _ Hr) as (-> & -> & _ & _ & [Hshape _]). done.
Qed.

Lemma shapeInv_createStore (s : MazeState) : createStore = Ok s → shapeInv s.
Proof.
  unfold createStore. intros (r & Hr & [= <-])%bind_Ok. unfold shapeInv. simpl.
  destruct (createPresetMaze_Ok _ _ Hr) as (-> & -> & _ & _ & [Hshape _]). done.
Qed.

(** C10.  The grid of the created store has [mazeHeight] rows of
    [mazeWidth] cells, each cell recording its own coordinates; every store
    operation that completes keeps it so; hence it holds in every state the
    store can reach. *)
Theorem store_operations_preserve_shape :
  (∀ s, createStore = Ok s → shapeInv s) ∧
  (∀ op s s', shapeInv s → exec op s = Ok s' → shapeInv s') ∧
  (∀ s, reachable s → shapeInv s).
Proof.
  split_and!.
  - apply shapeInv_createStore.
  - apply shapeInv_exec.
  - induction 1; eauto using shapeInv_createStore, shapeInv_exec.
Qed.

Lemma store_operations_preserve_shape_witness :
  shapeInv sampleState ∧
  ∃ s', exec (OpSetPath [mkPosition 1 1; mkPosition 7 (-2)]) sampleState = Ok s' ∧
        shapeInv s'.
Proof.
  assert (shapeInv sampleState) as Hs by (apply gridShape_initGrid; lia).
  split; [exact Hs|]. eexists. split; [reflexivity|].
  destruct store_operations_preserve_shape as (_ & Hexec & _).
  exact (Hexec (OpSetPath [mkPosition 1 1; mkPosition 7 (-2)]) sampleState _ Hs eq_refl).
Defined.

(** ** Preset indices *)

(** A non-negative index selects the entry at [preset mod 3] and the load
    completes, replacing the maze and resetting the session's cursors. *)
Lemma loadPresetMaze_nonneg (preset : Z) (s : MazeState) :
  0 ≤ preset →
  ∃ entry r s',
    nthZ PRESET_MAZES (preset `mod` 3) = Some entry ∧
    buildPresetMaze entry = Ok r ∧
    loadPresetMaze preset s = Ok s' ∧
    maze s' = pm_maze r ∧ mazeWidth s' = 15 ∧ mazeHeight s' = 15 ∧
    path s' = [] ∧ visitedCells s' = [] ∧ pathIndex s' = 0 ∧
    visualizationIndex s' = 0.
Proof.
  intros Hp.
  destruct (createPresetMaze_nonneg preset Hp)
    as (entry & r & He & Hb & Hr & Hw & Hh & _).
  unfold loadPresetMaze. rewrite Hr. simpl.
  eexists entry, r, _. split_and!; try done.
Qed.

(** C6.  At the index -1 the loader raises: JavaScript's [-1 % 3] is -1,
    [PRESET_MAZES[-1]] is [undefined], and destructuring it throws a
    TypeError, so [loadPresetMaze(-1)] does not complete and the maze is
    not replaced. *)
Theorem loadPresetMaze_minus_one_raises (s : MazeState) :
  Z.rem (-1) (Z.of_nat (length PRESET_MAZES)) = -1 ∧
  nthZ PRESET_MAZES (-1) = None ∧
  createPresetMaze (-1) = TypeError ∧
  loadPresetMaze (-1) s = TypeError.
Proof. done. Qed.

(** ** Laying the walls of a preset *)

Lemma layWall_touch (width height : Z) (m : Grid) (wall : Z * Z) :
  gridShape width height m → safeWall width height wall →
  layWall width height m wall = Ok (touchCell (setIsWall true) m wall.2 wall.1).
Proof.
  intros Hm Hsafe. destruct wall as [z x]. unfold layWall, safeWall in *. simpl in *.
  destruct (Z.ltb_spec z height), (Z.ltb_spec x width); simpl.
  - assert (inGrid width height x z = true) as Hin.
    { unfold inGrid. rewrite !andb_true_iff, !Z.leb_le, !Z.ltb_lt. lia. }
    rewrite (updateCell_inGrid _ width height) by done.
    unfold touchCell.
    by destruct (proj2 (gridShape_cellAt _ _ m x z Hm) Hin) as [c ->].
  - unfold touchCell. destruct (cellAt m x z) as [c|] eqn:E; [|done].
    assert (inGrid width height x z = true) as Hin
      by (apply (gridShape_cellAt _ _ _ _ _ Hm); eauto).
    unfold inGrid in Hin. rewrite !andb_true_iff, !Z.leb_le, !Z.ltb_lt in Hin. lia.
  - unfold touchCell. destruct (cellAt m x z) as [c|] eqn:E; [|done].
    assert (inGrid width height x z = true) as Hin
      by (apply (gridShape_cellAt _ _ _ _ _ Hm); eauto).
    unfold inGrid in Hin. rewrite !andb_true_iff, !Z.leb_le, !Z.ltb_lt in Hin. lia.
  - unfold touchCell. destruct (cellAt m x z) as [c|] eqn:E; [|done].
    assert (inGrid width height x z = true) as Hin
      by (apply (gridShape_cellAt _ _ _ _ _ Hm); eauto).
    unfold inGrid in Hin. rewrite !andb_true_iff, !Z.leb_le, !Z.ltb_lt in Hin. lia.
Qed.

Lemma layWalls_markCells (width height : Z) (walls : list (Z * Z)) (m : Grid) :
  gridShape width height m → Forall (safeWall width height) walls →
  layWalls width height walls m =
    Ok (markCells (setIsWall true) ((λ wall, mkPosition wall.2 wall.1) <$> walls) m).
Proof.
  intros Hm Hsafe. revert m Hm. unfold layWalls, markCells.
  induction Hsafe as [|wall walls Hwall _ IH]; intros m Hm; cbn [forEachM]; [done|].
  rewrite (layWall_touch width height) by done. cbn [mbind Result_bind].
  rewrite IH by auto with maze. done.
Qed.




(** ** The visualization cursor *)

Lemma run_reachable (ops : list Op) (s s' : MazeState) :
  reachable s → run ops s = Ok s' → reachable s'.
Proof.
  unfold run. revert s. induction ops as [|op ops IH]; intros s Hs; cbn [forEachM].
  - by intros [= <-].
  - intros (s1 & H1 & Hrest)%bind_Ok. eauto using reachable_exec.
Qed.

Lemma advanceVisualization_Ok (s s' : MazeState) (b : bool) :
  advanceVisualization s = Ok (s', b) →
  (b = true ∧ 0 ≤ visualizationIndex s < Z.of_nat (length (visitedCells s)) ∧
   ∃ cell, nthZ (visitedCells s) (visualizationIndex s) = Some cell ∧
     s' = setMazeAndCursor
            (touchCell (setIsVisited true) (maze s) (pos_x cell) (pos_z cell))
            (visualizationIndex s + 1) s) ∨
  (b = false ∧ Z.of_nat (length (visitedCells s)) ≤ visualizationIndex s ∧
   s' = setMazeAndCursor (markCells (setIsPath true) (path s) (maze s))
          (visualizationIndex s) s).
Proof.
  unfold advanceVisualization. rewrite mapGrid_id.
  destruct (Z.ltb_spec (visualizationIndex s) (Z.of_nat (length (visitedCells s)))).
  - intros (cell & Hcell%defined_Ok & [= <- <-])%bind_Ok. left.
    pose proof (nthZ_Some _ _ _ Hcell). split_and!; [done|lia|lia|]. eauto.
  - intros [= <- <-]. right. done.
Qed.

(** In a state whose cursor is not negative the call cannot raise. *)
Lemma advanceVisualization_total (s : MazeState) :
  0 ≤ visualizationIndex s → ∃ s' b, advanceVisualization s = Ok (s', b).
Proof.
  intros H0. unfold advanceVisualization.
  destruct (Z.ltb_spec (visualizationIndex s) (Z.of_nat (length (visitedCells s)))).
  - destruct (proj2 (nthZ_is_Some (visitedCells s) (visualizationIndex s))) as [c ->];
      [lia|]. simpl. eauto.
  - eauto.
Qed.

Lemma cursor_nonneg_exec (op : Op) (s s' : MazeState) :
  0 ≤ visualizationIndex s → exec op s = Ok s' → 0 ≤ visualizationIndex s'.
Proof.
  intros H0 Hexec.
  destruct op; simpl in Hexec; try (injection Hexec as <-); simpl; try done.
  - unfold startGame. by destruct (selectedAlgorithm s).
  - apply bind_Ok in Hexec as ([s1 b] & Hadv & [= <-]).
    apply advanceVisualization_Ok in Hadv as [(_ & _ & c & _ & ->) | (_ & _ & ->)];
      simpl; lia.
  - unfold moveBall. by destruct (_ <? _).
  - unfold restart in Hexec. by apply bind_Ok in Hexec as (r & _ & [= <-]).
  - unfold generateMaze in Hexec. by apply bind_Ok in Hexec as (r & _ & [= <-]).
  - unfold loadPresetMaze in Hexec. by apply bind_Ok in Hexec as (r & _ & [= <-]).
Qed.

Lemma cursor_nonneg (s : MazeState) : reachable s → 0 ≤ visualizationIndex s.
Proof.
  induction 1 as [s Hs|op s s' _ IH Hexec]; [|by eapply cursor_nonneg_exec].
  unfold createStore in Hs. by apply bind_Ok in Hs as (r & _ & [= <-]).
Qed.

Lemma cursor_bound_exec (op : Op) (s s' : MazeState) :
  visualizationIndex s ≤ Z.of_nat (length (visitedCells s)) →
  cursorFits op s → exec op s = Ok s' →
  visualizationIndex s' ≤ Z.of_nat (length (visitedCells s')).
Proof.
  intros Hb Hfit Hexec.
  destruct op; simpl in Hexec, Hfit; try (injection Hexec as <-); simpl; try done.
  - unfold startGame. by destruct (selectedAlgorithm s).
  - lia.
  - apply bind_Ok in Hexec as ([s1 b] & Hadv & [= <-]).
    apply advanceVisualization_Ok in Hadv as [(_ & ? & c & _ & ->) | (_ & _ & ->)];
      simpl; lia.
  - unfold moveBall. by destruct (_ <? _).
  - unfold restart in Hexec. by apply bind_Ok in Hexec as (r & _ & [= <-]).
  - unfold generateMaze in Hexec. by apply bind_Ok in Hexec as (r & _ & [= <-]).
  - unfold loadPresetMaze in Hexec. by apply bind_Ok in Hexec as (r & _ & [= <-]).
Qed.

Lemma freshMaze_pathOverlay (width height : Z) (m : Grid) (x z : Z) (c : MazeCell) :
  freshMaze width height m → cellAt m x z = Some c → isPath c = false.
Proof. intros [_ Hcells] Hc. by destruct (Hcells _ _ _ Hc) as (_ & _ & ? & _). Qed.

Lemma pathOverlayInv_exec (op : Op) (s s' : MazeState) :
  pathOverlayInv s → exec op s = Ok s' → pathOverlayInv s'.
Proof.
  unfold pathOverlayInv. intros Hinv Hexec.
  destruct op; simpl in Hexec; try (injection Hexec as <-); try exact Hinv.
  - unfold startGame. by destruct (selectedAlgorithm s).
  - intros x z c. rewrite cellAt_setPath.
    destruct (cellAt (maze s) x z) as [c0|]; [|done]. intros [= <-]. simpl.
    by intros ?%bool_decide_eq_true.
  - intros x z c. rewrite cellAt_setVisitedCells.
    destruct (cellAt (maze s) x z) as [c0|] eqn:E; [|done]. intros [= <-]. simpl.
    by apply Hinv.
  - intros x z c. simpl. rewrite cellAt_mapGrid.
    destruct (cellAt (maze s) x z) as [c0|]; [|done]. by intros [= <-].
  - apply bind_Ok in Hexec as ([s1 b] & Hadv & [= <-]).
    apply advanceVisualization_Ok in Hadv as [(_ & ? & cell & _ & ->) | (_ & _ & ->)];
      intros x z c; simpl.
    + rewrite cellAt_touchCell. case_decide; [|apply Hinv].
      destruct (cellAt (maze s) x z) as [c0|] eqn:E; [|done]. intros [= <-]. simpl.
      by apply Hinv.
    + rewrite cellAt_markCells by (by intros []).
      destruct (cellAt (maze s) x z) as [c0|] eqn:E; [|done]. intros [= <-].
      case_decide; [done|]. by apply Hinv.
  - unfold moveBall. by destruct (_ <? _).
  - unfold restart in Hexec. apply bind_Ok in Hexec as (r & Hr & [= <-]).
    intros x z c Hc Hp. simpl in *.
    destruct (generateRandomMaze_spec (DIFFICULTY_SIZES (difficulty s)).1
                (DIFFICULTY_SIZES (difficulty s)).2 rng)
      as (r' & Hr' & _ & _ & Hfresh & _);
      [destruct (difficulty s); simpl; lia..|].
    rewrite Hr in Hr'. injection Hr' as <-.
    pose proof (freshMaze_pathOverlay _ _ _ _ _ _ Hfresh Hc). congruence.
  - unfold generateMaze in Hexec. apply bind_Ok in Hexec as (r & Hr & [= <-]).
    intros x z c Hc Hp. simpl in *.
    destruct (generateRandomMaze_spec (DIFFICULTY_SIZES (difficulty s)).1
                (DIFFICULTY_SIZES (difficulty s)).2 rng)
      as (r' & Hr' & _ & _ & Hfresh & _);
      [destruct (difficulty s); simpl; lia..|].
    rewrite Hr in Hr'. injection Hr' as <-.
    pose proof (freshMaze_pathOverlay _ _ _ _ _ _ Hfresh Hc). congruence.
  - unfold loadPresetMaze in Hexec. apply bind_Ok in Hexec as (r & Hr & [= <-]).
    intros x z c Hc Hp. simpl in *.
    destruct (createPresetMaze_Ok _ _ Hr) as (_ & _ & _ & _ & Hfresh).
    pose proof (freshMaze_pathOverlay _ _ _ _ _ _ Hfresh Hc). congruence.
Qed.

Lemma pathOverlayInv_reachable (s : MazeState) : reachable s → pathOverlayInv s.
Proof.
  induction 1 as [s Hs|op s s' _ IH Hexec]; [|by eapply pathOverlayInv_exec].
  unfold createStore in Hs. apply bind_Ok in Hs as (r & Hr & [= <-]).
  intros x z c Hc Hp. simpl in *.
  destruct (createPresetMaze_Ok _ _ Hr) as (_ & _ & _ & _ & Hfresh).
  pose proof (freshMaze_pathOverlay _ _ _ _ _ _ Hfresh Hc). congruence.
Qed.

(** C3 as the code has it.  In every reachable state the cursor is not
    negative and [advanceVisualization] returns.  A store operation keeps
    the cursor within the visited list, provided that, when it is
    [setVisitedCells] or [storeVisitedCells], the new list is at least as
    long as the cursor.  [advanceVisualization] never decreases the cursor:
    it returns [true] and adds one when the cursor is below the length of
    the list, and returns [false] and keeps it otherwise.  After a call that
    returns [false] in a reachable state, a cell carries [isPath] exactly
    when its position is on the stored path. *)
Theorem visualization_cursor :
  (∀ s, reachable s →
     0 ≤ visualizationIndex s ∧ ∃ s' b, advanceVisualization s = Ok (s', b)) ∧
  (∀ op s s',
     visualizationIndex s ≤ Z.of_nat (length (visitedCells s)) →
     cursorFits op s → exec op s = Ok s' →
     visualizationIndex s' ≤ Z.of_nat (length (visitedCells s'))) ∧
  (∀ s s' b, advanceVisualization s = Ok (s', b) →
     visualizationIndex s ≤ visualizationIndex s' ∧
     visitedCells s' = visitedCells s ∧ path s' = path s ∧
     (b = true → visualizationIndex s < Z.of_nat (length (visitedCells s)) ∧
                 visualizationIndex s' = visualizationIndex s + 1) ∧
     (b = false → Z.of_nat (length (visitedCells s)) ≤ visualizationIndex s ∧
                  visualizationIndex s' = visualizationIndex s)) ∧
  (∀ s s', reachable s → advanceVisualization s = Ok (s', false) →
     ∀ x z c, cellAt (maze s') x z = Some c →
       (isPath c = true ↔ mkPosition x z ∈ path s')).
Proof.
  split_and!.
  - intros s Hs. pose proof (cursor_nonneg s Hs).
    split; [done|]. by apply advanceVisualization_total.
  - apply cursor_bound_exec.
  - intros s s' b Hadv.
    apply advanceVisualization_Ok in Hadv
      as [(-> & ? & c & _ & ->) | (-> & ? & ->)]; simpl;
      split_and!; try done; try lia; intros _; lia.
  - intros s s' Hs Hadv x z c.
    pose proof (pathOverlayInv_reachable s Hs) as Hinv.
    apply advanceVisualization_Ok in Hadv as [([=] & _) | (_ & _ & ->)]. simpl.
    rewrite cellAt_markCells by (by intros []).
    destruct (cellAt (maze s) x z) as [c0|] eqn:E; [|done]. intros [= <-].
    case_decide as Hin; simpl; [done|].
    split; [|done]. intros Hp. by apply (Hinv x z c0).
Qed.

Lemma visualization_cursor_witness :
  visualizationIndex sampleState ≤ Z.of_nat (length (visitedCells sampleState)) ∧
  cursorFits (OpStoreVisitedCells [mkPosition 2 2]) sampleState ∧
  ∃ s', exec (OpStoreVisitedCells [mkPosition 2 2]) sampleState = Ok s' ∧
        visualizationIndex s' ≤ Z.of_nat (length (visitedCells s')).
Proof.
  assert (visualizationIndex sampleState
          ≤ Z.of_nat (length (visitedCells sampleState))) as Hb by (simpl; lia).
  assert (cursorFits (OpStoreVisitedCells [mkPosition 2 2]) sampleState) as Hfit
    by (simpl; lia).
  split; [exact Hb|]. split; [exact Hfit|]. eexists. split; [reflexivity|].
  destruct visualization_cursor as (_ & Hbound & _).
  exact (Hbound (OpStoreVisitedCells [mkPosition 2 2]) sampleState _ Hb Hfit eq_refl).
Defined.

(** The bound of C3 does not survive every sequence of operations: store a
    visited list of one cell, advance once, store the empty list; the
    cursor is then 1 and the list has length 0.  Nor is the path overlay in
    place as soon as the cursor equals the length of the list: after
    [setPath([(1,1)])] and [startVisualization()] the cursor and the length
    are both 0, (1,1) is on the stored path, and its cell has no [isPath]. *)
Lemma cursor_bound_counterexample :
  ∃ s0 s s2,
    createStore = Ok s0 ∧
    run [OpStoreVisitedCells [mkPosition 1 1]; OpAdvanceVisualization;
         OpStoreVisitedCells []] s0 = Ok s ∧
    reachable s ∧
    visualizationIndex s = 1 ∧ visitedCells s = [] ∧
    ¬ (0 ≤ visualizationIndex s ≤ Z.of_nat (length (visitedCells s))) ∧
    run [OpSetPath [mkPosition 1 1]; OpStartVisualization] s0 = Ok s2 ∧
    reachable s2 ∧
    visualizationIndex s2 = Z.of_nat (length (visitedCells s2)) ∧
    mkPosition 1 1 ∈ path s2 ∧
    ∃ c, cellAt (maze s2) 1 1 = Some c ∧ isPath c = false.
Proof.
  destruct (createPresetMaze_nonneg 0) as (entry & r & _ & _ & Hr & _); [lia|].
  assert (∃ s0, createStore = Ok s0) as [s0 Hs0]
    by (unfold createStore; rewrite Hr; simpl; eauto).
  assert (visualizationIndex s0 = 0) as Hi0.
  { unfold createStore in Hs0. rewrite Hr in Hs0. by injection Hs0 as <-. }
  assert (visitedCells s0 = []) as Hv0.
  { unfold createStore in Hs0. rewrite Hr in Hs0. by injection Hs0 as <-. }
  assert (reachable s0) as Hreach0 by (by constructor).
  eexists s0, _, _. split; [done|].
  assert (run [OpStoreVisitedCells [mkPosition 1 1]; OpAdvanceVisualization;
               OpStoreVisitedCells []] s0 =
          Ok (storeVisitedCells []
                (setMazeAndCursor
                   (touchCell (setIsVisited true)
                      (mapGrid (λ cell, cell) (maze s0)) 1 1) 1
                   (storeVisitedCells [mkPosition 1 1] s0)))) as Hrun.
  { unfold run. cbn [forEachM exec mbind Result_bind].
    unfold advanceVisualization. cbn [storeVisitedCells visualizationIndex visitedCells].
    rewrite Hi0. reflexivity. }
  split; [exact Hrun|].
  split; [eapply run_reachable; [exact Hreach0|exact Hrun]|].
  split; [reflexivity|]. split; [reflexivity|].
  split; [simpl; lia|].
  assert (run [OpSetPath [mkPosition 1 1]; OpStartVisualization] s0 =
          Ok (startVisualization (setPath [mkPosition 1 1] s0))) as Hrun2
    by reflexivity.
  split; [exact Hrun2|].
  split; [eapply run_reachable; [exact Hreach0|exact Hrun2]|].
  split; [simpl; by rewrite Hv0|].
  split; [simpl; left|].
  cbn [startVisualization maze]. rewrite cellAt_mapGrid, cellAt_setPath.
  assert (is_Some (cellAt (maze s0) 1 1)) as [c0 Hc0].
  { unfold createStore in Hs0. rewrite Hr in Hs0. injection Hs0 as <-. cbn [maze].
    destruct (createPresetMaze_Ok _ _ Hr) as (_ & _ & _ & _ & [Hshape _]).
    by apply (gridShape_cellAt 15 15 _ 1 1 Hshape). }
  rewrite Hc0. eexists. split; [reflexivity|done].
Qed.

(** ** Timers of the overlay component *)

Lemma findTimer_None (id : nat) (ts : list Timer) :
  (∀ t, t ∈ ts → timer_id t ≠ id) → findTimer id ts = None.
Proof.
  induction ts as [|t ts IH]; intros H; simpl; [done|].
  destruct (Nat.eqb_spec (timer_id t) id) as [Heq|_].
  - destruct (H t); [left|done].
  - apply IH. intros t' Ht'. apply H. by right.
Qed.

Lemma elem_of_clearTimer (id : nat) (w : World) (t : Timer) :
  t ∈ timers (clearTimer id w) ↔ t ∈ timers w ∧ timer_id t ≠ id.
Proof.
  unfold clearTimer. simpl. rewrite !list_elem_of_In, filter_In, negb_true_iff.
  by rewrite Nat.eqb_neq.
Qed.

(** What the first effect does in the menu phase. *)
Lemma menuCleanupEffect_menu (w : World) :
  phase (store w) = menu →
  let w' := menuCleanupEffect w in
  store w' = store w ∧ hasSolvedRef w' = false ∧
  timeoutRef w' = None ∧ visualizationIntervalRef w' = None ∧
  (∀ t, t ∈ timers w' ↔
        t ∈ timers w ∧ Some (timer_id t) ≠ timeoutRef w ∧
        Some (timer_id t) ≠ visualizationIntervalRef w).
Proof.
  intros Hmenu. unfold menuCleanupEffect. rewrite decide_True by done.
  destruct w as [s solved [tid|] [iid|] ts next]; simpl; split_and!; try done;
    intros t; rewrite !list_elem_of_In, ?filter_In, ?negb_true_iff, ?Nat.eqb_neq;
    intuition congruence.
Qed.

Lemma restartAndCleanup_Ok (rng : Rng) (w w' : World) :
  restartAndCleanup rng w = Ok w' →
  ∃ s, restart rng (store w) = Ok s ∧ phase s = menu ∧
       w' = menuCleanupEffect (withStore s w).
Proof.
  unfold restartAndCleanup. intros (s & Hs & [= <-])%bind_Ok.
  exists s. split_and!; try done.
  unfold restart in Hs. by apply bind_Ok in Hs as (r & _ & [= <-]).
Qed.

(** The effects record every timer they schedule in a ref. *)
Lemma solveEffect_tracks runAlgorithm (w : World) (t : Timer) :
  t ∈ timers (solveEffect runAlgorithm w) →
  t ∈ timers w ∨ timeoutRef (solveEffect runAlgorithm w) = Some (timer_id t).
Proof.
  unfold solveEffect.
  destruct (decide (phase (store w) = solving)); [|by left].
  destruct (selectedAlgorithm (store w)); [|by left].
  destruct (hasSolvedRef w); [by left|].
  cbn [setHasSolvedRef withStore store setStats visualizationMode].
  destruct (visualizationMode (store w)); cbn;
    intros [Hin|Hin%list_elem_of_singleton]%elem_of_app; subst; auto.
Qed.

Lemma visualizationEffect_tracks (w : World) (t : Timer) :
  t ∈ timers (visualizationEffect w) →
  t ∈ timers w ∨ visualizationIntervalRef (visualizationEffect w) = Some (timer_id t).
Proof.
  unfold visualizationEffect.
  destruct (decide (phase (store w) = visualizing)); [|by left]. cbn.
  intros [Hin|Hin%list_elem_of_singleton]%elem_of_app; subst; auto.
Qed.

(** C5 as the code has it.  The timer callbacks carry no phase guard: run
    in the menu phase, the two settle callbacks move the session to
    [visualizing] and to [moving], and a tick that does not raise either
    advances the cursor or schedules a further [startMoving] timeout.  What
    protects the menu phase is ownership: [restart()] followed by the menu
    cleanup effect leaves both refs [null] and the latch unset, keeps
    pending exactly the timers that neither ref held, and so a timer whose
    handle was in [timeoutRef] or [visualizationIntervalRef] cannot fire
    afterwards.  The effects, for their part, record every timer they
    schedule in one of the two refs. *)
Theorem timers_cancelled_by_ownership :
  (∀ w, phase (store w) = menu →
     (∃ w', runCallback CbStartVisualization w = Ok w' ∧
            phase (store w') = visualizing) ∧
     (∃ w', runCallback CbStartMoving w = Ok w' ∧ phase (store w') = moving) ∧
     (∀ w', runCallback CbVisualizationTick w = Ok w' →
        visualizationIndex (store w') = visualizationIndex (store w) + 1 ∨
        (nextTimerId w' = S (nextTimerId w) ∧
         ∃ t, t ∈ timers w' ∧ timer_callback t = CbStartMoving ∧
              timeoutRef w' = Some (timer_id t)))) ∧
  (∀ rng w w', restartAndCleanup rng w = Ok w' →
     phase (store w') = menu ∧ hasSolvedRef w' = false ∧
     timeoutRef w' = None ∧ visualizationIntervalRef w' = None ∧
     (∀ t, t ∈ timers w' ↔
           t ∈ timers w ∧ Some (timer_id t) ≠ timeoutRef w ∧
           Some (timer_id t) ≠ visualizationIntervalRef w) ∧
     (∀ id, timeoutRef w = Some id ∨ visualizationIntervalRef w = Some id →
            fireTimer id w' = None)) ∧
  (∀ runAlgorithm w t,
     (t ∈ timers (solveEffect runAlgorithm w) →
      t ∈ timers w ∨ timeoutRef (solveEffect runAlgorithm w) = Some (timer_id t)) ∧
     (t ∈ timers (visualizationEffect w) →
      t ∈ timers w ∨
      visualizationIntervalRef (visualizationEffect w) = Some (timer_id t))).
Proof.
  split; [|split].
  3:{ intros runAlgorithm w t. split;
        [apply solveEffect_tracks|apply visualizationEffect_tracks]. }
  - intros w Hmenu. split_and!.
    + eexists. split; [reflexivity|done].
    + eexists. split; [reflexivity|done].
    + intros w'. cbn [runCallback].
      intros ([s b] & Hadv & Hrest)%bind_Ok. cbn [fst snd] in Hrest.
      apply advanceVisualization_Ok in Hadv as [(-> & _ & c & _ & ->) | (-> & _ & ->)].
      * injection Hrest as <-. by left.
      * right. destruct w as [s0 solved tref [iid|] ts next];
          cbn in Hrest; injection Hrest as <-; cbn; (split; [done|]);
          eexists (mkTimer next false 500 CbStartMoving);
          (split_and!; [|done|done]); apply elem_of_app; right; left.
  - intros rng w w' (s & Hs & Hmenu & ->)%restartAndCleanup_Ok.
    destruct (menuCleanupEffect_menu (withStore s w) Hmenu)
      as (Hstore & Hsolved & Htref & Hiref & Htimers).
    split_and!; try done.
    + by rewrite Hstore.
    + intros id Hid. unfold fireTimer. rewrite findTimer_None; [done|].
      intros t (_ & Ht1 & Ht2)%Htimers Heq. simpl in Ht1, Ht2.
      destruct Hid as [Hid|Hid]; congruence.
Qed.

Lemma timers_cancelled_by_ownership_witness :
  ∃ w', restartAndCleanup [5; 3]%nat sampleWorld = Ok w' ∧
        phase (store w') = menu ∧
        fireTimer 1 w' = None ∧ fireTimer 2 w' = None.
Proof.
  destruct (restart [5; 3]%nat (store sampleWorld)) as [s| |] eqn:Hs;
    [|vm_compute in Hs; discriminate..].
  assert (restartAndCleanup [5; 3]%nat sampleWorld
          = Ok (menuCleanupEffect (withStore s sampleWorld))) as Hr
    by (unfold restartAndCleanup; by rewrite Hs).
  destruct timers_cancelled_by_ownership as (_ & Hown & _).
  destruct (Hown _ _ _ Hr) as (Hmenu & _ & _ & _ & _ & Hfire).
  eexists. split; [exact Hr|]. split; [exact Hmenu|].
  split; apply Hfire; [by left|by right].
Defined.

(** No callback checks the phase: after [restart()] has put the session
    back in the menu phase, a settle timeout that is still pending fires
    and moves the session to the moving phase. *)
Lemma dangling_timer_changes_phase :
  ∃ s0 s1 w',
    createStore = Ok s0 ∧ restart [] s0 = Ok s1 ∧ phase s1 = menu ∧
    fireTimer 7 (mkWorld s1 false None None [mkTimer 7 false 500 CbStartMoving] 8)
      = Some (Ok w') ∧
    phase (store w') = moving ∧ store w' ≠ s1.
Proof.
  destruct (createPresetMaze_nonneg 0) as (entry & r & _ & _ & Hr & _); [lia|].
  assert (∃ s0, createStore = Ok s0 ∧ difficulty s0 = medium) as (s0 & Hs0 & Hd)
    by (unfold createStore; rewrite Hr; simpl; eauto).
  destruct (generateRandomMaze_spec 15 15 []) as (rm & Hrm & _); [lia|lia|].
  assert (∃ s1, restart [] s0 = Ok s1 ∧ phase s1 = menu) as (s1 & Hs1 & Hmenu)
    by (unfold restart; rewrite Hd; cbn [DIFFICULTY_SIZES fst snd]; rewrite Hrm;
        cbn [mbind Result_bind]; eauto).
  exists s0, s1, (withStore (startMoving s1) (mkWorld s1 false None None [] 8)).
  split; [exact Hs0|]. split; [exact Hs1|]. split; [exact Hmenu|].
  split; [reflexivity|]. split; [reflexivity|].
  cbn [store withStore]. intros Heq.
  assert (phase (startMoving s1) = moving) as Hmoving by reflexivity.
  rewrite Heq, Hmenu in Hmoving. discriminate.
Qed.

(** * Further properties of the store and the component *)

(** ** The shuffle of the directions *)

Lemma swap_Permutation {A} (i j : nat) (l : list A) : swap i j l ≡ₚ l.
Proof.
  unfold swap.
  destruct (l !! i) as [a|] eqn:Ea; [|done].
  destruct (l !! j) as [b|] eqn:Eb; [|done].
  by apply Permutation_insert_swap.
Qed.

Lemma shuffle_Permutation {A} (i : nat) (l : list A) (rng : Rng) :
  (shuffle i l rng).1 ≡ₚ l.
Proof.
  revert l rng. induction i as [|i IH]; intros l rng; simpl; [done|].
  destruct (randomBelow (S (S i)) rng) as [j rng'].
  by rewrite IH, swap_Permutation.
Qed.

(** X1.  The Fisher-Yates loop of [carve] returns a permutation of the list
    it is given, whatever the random draws, and consumes one draw for each
    of its [i] rounds: the four directions are all tried, each once. *)
Theorem shuffle_permutes {A} (i : nat) (l : list A) (rng : Rng) :
  (shuffle i l rng).1 ≡ₚ l ∧ (shuffle i l rng).2 = drop i rng.
Proof.
  split; [apply shuffle_Permutation|].
  revert l rng. induction i as [|i IH]; intros l rng; simpl.
  - by rewrite drop_0.
  - destruct rng as [|r rng]; simpl.
    + rewrite IH. by rewrite !drop_nil.
    + apply IH.
Qed.

(** ** Every phase change has one operation and one target *)



(** ** The ball is always somewhere *)

Lemma ball_defined_exec (op : Op) (s s' : MazeState) :
  0 ≤ pathIndex s ∧ is_Some (ballPosition s) →
  exec op s = Ok s' →
  0 ≤ pathIndex s' ∧ is_Some (ballPosition s').
Proof.
  intros [Hi Hb] Hexec.
  destruct op; simpl in Hexec; try (injection Hexec as <-); simpl; try done.
  - unfold startGame. by destruct (selectedAlgorithm s).
  - apply bind_Ok in Hexec as ([s1 b] & Hadv & [= <-]).
    by apply advanceVisualization_Ok in Hadv as [(_ & _ & c & _ & ->) | (_ & _ & ->)].
  - unfold moveBall.
    destruct (Z.ltb_spec (pathIndex s) (Z.of_nat (length (path s)))); simpl; [|done].
    split; [lia|]. apply nthZ_is_Some. lia.
  - unfold restart in Hexec. by apply bind_Ok in Hexec as (r & _ & [= <-]).
  - unfold generateMaze in Hexec. by apply bind_Ok in Hexec as (r & _ & [= <-]).
  - unfold loadPresetMaze in Hexec. by apply bind_Ok in Hexec as (r & _ & [= <-]).
Qed.

(** X4.  In every state the store can reach, [pathIndex] is not negative
    and [ballPosition] is a position, never [undefined]: [moveBall] reads
    [path[pathIndex]] only below the length of the path, and the cursor
    never goes below zero. *)
Theorem ball_always_defined (s : MazeState) :
  reachable s → 0 ≤ pathIndex s ∧ is_Some (ballPosition s).
Proof.
  induction 1 as [s Hs|op s s' _ IH Hexec]; [|by eapply ball_defined_exec].
  unfold createStore in Hs. by apply bind_Ok in Hs as (r & _ & [= <-]).
Qed.

Lemma ball_always_defined_witness :
  ∃ s0 s, createStore = Ok s0 ∧
    run [OpSetPath [mkPosition 1 1]; OpStartMoving; OpMoveBall; OpMoveBall] s0 = Ok s ∧
    0 ≤ pathIndex s ∧ is_Some (ballPosition s).
Proof.
  destruct (createPresetMaze_nonneg 0) as (entry & r & _ & _ & Hr & _); [lia|].
  assert (∃ s0, createStore = Ok s0) as [s0 Hs0]
    by (unfold createStore; rewrite Hr; simpl; eauto).
  assert (reachable s0) as Hreach0 by (by constructor).
  assert (∃ s, run [OpSetPath [mkPosition 1 1]; OpStartMoving; OpMoveBall;
                    OpMoveBall] s0 = Ok s) as [s Hs] by (eexists; reflexivity).
  exists s0, s. split; [exact Hs0|]. split; [exact Hs|].
  exact (ball_always_defined s (run_reachable _ _ _ Hreach0 Hs)).
Defined.

(** ** Which preset indices load *)

(** X5.  [createPresetMaze] raises exactly for the negative indices that
    are not multiples of 3.  For every other index it builds the catalog
    entry at the remainder of the index by 3, so that indices from 0 repeat
    with period 3. *)
Theorem createPresetMaze_index (presetIndex : Z) :
  (createPresetMaze presetIndex = TypeError ↔
     presetIndex < 0 ∧ presetIndex `rem` 3 ≠ 0) ∧
  (¬ (presetIndex < 0 ∧ presetIndex `rem` 3 ≠ 0) →
     ∃ entry r, nthZ PRESET_MAZES (presetIndex `rem` 3) = Some entry ∧
       buildPresetMaze entry = Ok r ∧ createPresetMaze presetIndex = Ok r) ∧
  (∀ k, 0 ≤ presetIndex → 0 ≤ k →
     createPresetMaze (presetIndex + 3 * k) = createPresetMaze presetIndex).
Proof.
  assert (¬ (presetIndex < 0 ∧ presetIndex `rem` 3 ≠ 0) →
     ∃ entry r, nthZ PRESET_MAZES (presetIndex `rem` 3) = Some entry ∧
       buildPresetMaze entry = Ok r ∧ createPresetMaze presetIndex = Ok r) as Hok.
  { intros Hn. destruct (Z.le_gt_cases 0 presetIndex) as [Hi|Hi].
    - destruct (createPresetMaze_nonneg presetIndex Hi)
        as (entry & r & He & Hb & Hr & _).
      exists entry, r. by rewrite Z.rem_mod_nonneg by lia.
    - assert (presetIndex `rem` 3 = 0) as H0 by lia.
      unfold createPresetMaze. change (Z.of_nat (length PRESET_MAZES)) with 3.
      rewrite H0. eexists _, _. split; [reflexivity|].
      split; vm_compute; reflexivity. }
  split_and!.
  - split.
    + intros Herr. destruct (decide (presetIndex < 0 ∧ presetIndex `rem` 3 ≠ 0));
        [done|]. destruct (Hok n) as (entry & r & _ & _ & Hr). congruence.
    + intros [? ?]. by apply createPresetMaze_negative.
  - exact Hok.
  - intros k Hi Hk. unfold createPresetMaze.
    change (Z.of_nat (length PRESET_MAZES)) with 3.
    rewrite !Z.rem_mod_nonneg by lia.
    by rewrite Z.mul_comm, Z_mod_plus_full.
Qed.

Lemma createPresetMaze_index_witness :
  createPresetMaze (-6) = createPresetMaze 0 ∧
  createPresetMaze (2 + 3 * 5) = createPresetMaze 2 ∧
  createPresetMaze (-4) = TypeError.
Proof.
  destruct (createPresetMaze_index (-6)) as (_ & Hok & _).
  destruct (createPresetMaze_index 2) as (_ & _ & Hperiod).
  destruct (createPresetMaze_index (-4)) as (Herr & _).
  split_and!.
  - destruct Hok as (entry & r & He & Hb & ->); [intros [_ H]; by apply H|].
    injection He as <-. symmetry. exact Hb.
  - apply Hperiod; lia.
  - apply Herr. split; [lia|discriminate].
Defined.

(** ** Fresh mazes *)

(** X3.  A maze returned by either generator has exactly one start cell
    and exactly one end cell: [isStart] holds at (1,1) and nowhere else,
    [isEnd] at (width-2,height-2) and nowhere else, and no cell carries an
    overlay flag. *)
Theorem generated_flags_unique :
  (∀ width height rng, 4 ≤ width → 4 ≤ height →
     ∃ r, generateRandomMaze width height rng = Ok r ∧
       ∀ x z c, cellAt (rm_maze r) x z = Some c →
         (isStart c = true ↔ x = 1 ∧ z = 1) ∧
         (isEnd c = true ↔ x = width - 2 ∧ z = height - 2) ∧
         isPath c = false ∧ isVisited c = false) ∧
  (∀ presetIndex r, createPresetMaze presetIndex = Ok r →
     ∀ x z c, cellAt (pm_maze r) x z = Some c →
       (isStart c = true ↔ x = 1 ∧ z = 1) ∧
       (isEnd c = true ↔ x = pm_width r - 2 ∧ z = pm_height r - 2) ∧
       isPath c = false ∧ isVisited c = false).
Proof.
  split.
  - intros width height rng Hw Hh.
    destruct (generateRandomMaze_spec width height rng Hw Hh)
      as (r & Hr & _ & _ & [_ Hcells] & _).
    exists r. split; [done|]. intros x z c Hc.
    destruct (Hcells x z c Hc) as (-> & -> & ? & ? & _).
    by rewrite !bool_decide_eq_true.
  - intros presetIndex r Hr x z c Hc.
    destruct (createPresetMaze_Ok _ _ Hr) as (-> & -> & _ & _ & [_ Hcells]).
    destruct (Hcells x z c Hc) as (-> & -> & ? & ? & _).
    by rewrite !bool_decide_eq_true.
Qed.

Lemma generated_flags_unique_witness :
  ∃ r, generateRandomMaze 5 4 [1; 0; 2]%nat = Ok r ∧
    ∀ x z c, cellAt (rm_maze r) x z = Some c →
      (isStart c = true ↔ x = 1 ∧ z = 1) ∧
      (isEnd c = true ↔ x = 5 - 2 ∧ z = 4 - 2) ∧
      isPath c = false ∧ isVisited c = false.
Proof.
  destruct generated_flags_unique as [Hrandom _].
  apply (Hrandom 5 4 [1; 0; 2]%nat); lia.
Defined.

(** ** Resetting the session *)

(** X11.  [restart()] and [generateMaze()] complete in every state and for
    every run of random draws.  Both install a fresh maze of the size that
    the current difficulty names, put the ball on the start cell (1,1),
    empty the path and the visited list, zero both cursors and drop the
    statistics; [restart] moreover returns to the menu and deselects the
    algorithm, so that [startGame()] right after it does nothing, while
    [generateMaze] keeps the phase and the algorithm.  Given the same
    draws, the two install the same maze. *)
Theorem restart_resets (rng : Rng) (s : MazeState) :
  ∃ s' s'',
    restart rng s = Ok s' ∧ generateMaze rng s = Ok s'' ∧
    phase s' = menu ∧ selectedAlgorithm s' = None ∧ startGame s' = s' ∧
    phase s'' = phase s ∧ selectedAlgorithm s'' = selectedAlgorithm s ∧
    maze s'' = maze s' ∧
    (mazeWidth s', mazeHeight s') = DIFFICULTY_SIZES (difficulty s) ∧
    (mazeWidth s'', mazeHeight s'') = DIFFICULTY_SIZES (difficulty s) ∧
    freshMaze (mazeWidth s') (mazeHeight s') (maze s') ∧
    startPos s' = mkPosition 1 1 ∧ startPos s'' = mkPosition 1 1 ∧
    ballPosition s' = Some (mkPosition 1 1) ∧
    ballPosition s'' = Some (mkPosition 1 1) ∧
    endPos s' = mkPosition (mazeWidth s' - 2) (mazeHeight s' - 2) ∧
    endPos s'' = endPos s' ∧
    path s' = [] ∧ visitedCells s' = [] ∧ pathIndex s' = 0 ∧
    visualizationIndex s' = 0 ∧ stats s' = None ∧
    path s'' = [] ∧ visitedCells s'' = [] ∧ pathIndex s'' = 0 ∧
    visualizationIndex s'' = 0 ∧ stats s'' = None ∧
    difficulty s' = difficulty s ∧ visualizationMode s' = visualizationMode s ∧
    difficulty s'' = difficulty s ∧ visualizationMode s'' = visualizationMode s.
Proof.
  destruct (generateRandomMaze_spec (DIFFICULTY_SIZES (difficulty s)).1
              (DIFFICULTY_SIZES (difficulty s)).2 rng)
    as (r & Hr & Hst & Hen & Hfresh & _);
    [destruct (difficulty s); simpl; lia..|].
  unfold restart, generateMaze. rewrite Hr. cbn [mbind Result_bind].
  eexists _, _. split; [reflexivity|]. split; [reflexivity|].
  cbn -[DIFFICULTY_SIZES]. rewrite Hst, Hen.
  split_and!; try done. by destruct (DIFFICULTY_SIZES (difficulty s)).
  by destruct (DIFFICULTY_SIZES (difficulty s)).
Qed.

(** ** Grids are determined by their cells *)

Lemma grid_ext (m m' : Grid) :
  length <$> m = length <$> m' →
  (∀ x z, cellAt m x z = cellAt m' x z) → m = m'.
Proof.
  intros Hd Hc. apply list_eq. intros i.
  assert (length <$> m !! i = length <$> m' !! i) as Hi
    by (by rewrite <- !list_lookup_fmap, Hd).
  destruct (m !! i) as [row|] eqn:Er, (m' !! i) as [row'|] eqn:Er'; try done.
  f_equal. apply list_eq. intros j.
  specialize (Hc (Z.of_nat j) (Z.of_nat i)). unfold cellAt, nthZ in Hc.
  destruct (Z.leb_spec 0 (Z.of_nat i)); [|lia].
  rewrite !Nat2Z.id, Er, Er' in Hc. simpl in Hc.
  by destruct (Z.leb_spec 0 (Z.of_nat j)); [|lia].
Qed.

Lemma dims_alterCell f x z (m : Grid) :
  length <$> alterCell f x z m = length <$> m.
Proof.
  unfold alterCell. destruct (_ && _); [|done].
  apply list_eq. intros i. rewrite !list_lookup_fmap, list_lookup_alter.
  case_decide; [|done]. subst.
  destruct (m !! Z.to_nat z); simpl; [|done]. by rewrite length_alter.
Qed.

Lemma dims_touchCell f (m : Grid) x z :
  length <$> touchCell f m x z = length <$> m.
Proof. unfold touchCell. destruct (cellAt m x z); [apply dims_alterCell|done]. Qed.

Lemma dims_mapGrid f (m : Grid) : length <$> mapGrid f m = length <$> m.
Proof.
  unfold mapGrid. apply list_eq. intros i. rewrite !list_lookup_fmap.
  destruct (m !! i); simpl; [|done]. by rewrite length_fmap.
Qed.

Lemma dims_markCells f cells (m : Grid) :
  length <$> markCells f cells m = length <$> m.
Proof.
  revert m. unfold markCells. induction cells as [|p cells IH]; intros m; simpl;
    [done|]. by rewrite IH, dims_touchCell.
Qed.

(** ** How the overlay operations compose *)

(** X7.  A second [setPath] overwrites the first and a second
    [setVisitedCells] overwrites the first (so each is idempotent), and the
    two operations commute: the path overlay and the visited overlay never
    disturb each other. *)
Theorem overlays_compose (s : MazeState) (p q v : list Position) :
  setPath p (setPath q s) = setPath p s ∧
  setVisitedCells v (setVisitedCells q s) = setVisitedCells v s ∧
  setPath p (setVisitedCells v s) = setVisitedCells v (setPath p s).
Proof.
  assert (∀ s1 s2 : MazeState,
    (∀ x z, cellAt (maze s1) x z = cellAt (maze s2) x z) →
    length <$> maze s1 = length <$> maze s2 → maze s1 = maze s2) as Hext
    by (intros s1 s2 Hc Hd; by apply grid_ext).
  assert (∀ s1 s2 : MazeState, phase s1 = phase s2 →
    selectedAlgorithm s1 = selectedAlgorithm s2 → maze s1 = maze s2 →
    mazeWidth s1 = mazeWidth s2 → mazeHeight s1 = mazeHeight s2 →
    startPos s1 = startPos s2 → endPos s1 = endPos s2 → path s1 = path s2 →
    visitedCells s1 = visitedCells s2 → ballPosition s1 = ballPosition s2 →
    pathIndex s1 = pathIndex s2 → stats s1 = stats s2 →
    visualizationMode s1 = visualizationMode s2 → difficulty s1 = difficulty s2 →
    visualizationIndex s1 = visualizationIndex s2 → s1 = s2) as Hstate
    by (intros [] []; simpl; intros; by subst).
  split_and!; apply Hstate; try reflexivity; apply Hext.
  - intros x z. rewrite !cellAt_setPath.
    by destruct (cellAt (maze s) x z) as [[]|].
  - simpl. by rewrite !dims_markCells, !dims_mapGrid, !dims_markCells, !dims_mapGrid.
  - intros x z. rewrite !cellAt_setVisitedCells.
    by destruct (cellAt (maze s) x z) as [[]|].
  - simpl. by rewrite !dims_markCells, !dims_mapGrid, !dims_markCells, !dims_mapGrid.
  - intros x z. rewrite cellAt_setPath, !cellAt_setVisitedCells, cellAt_setPath.
    by destruct (cellAt (maze s) x z) as [[]|].
  - simpl. by rewrite !dims_markCells, !dims_mapGrid, !dims_markCells, !dims_mapGrid.
Qed.

(** ** Playing the visualization *)

Lemma advances_spec (k : nat) :
  ∀ (s : MazeState) (i : nat),
    visualizationIndex s = Z.of_nat i →
    (i + k ≤ length (visitedCells s))%nat →
    ∃ s', advances k s = Ok (s', replicate k true) ∧
      visualizationIndex s' = Z.of_nat (i + k) ∧
      visitedCells s' = visitedCells s ∧ path s' = path s ∧ phase s' = phase s ∧
      length <$> maze s' = length <$> maze s ∧
      ∀ x z, cellAt (maze s') x z =
        (λ c, if decide (mkPosition x z ∈ take k (drop i (visitedCells s)))
              then setIsVisited true c else c) <$> cellAt (maze s) x z.
Proof.
  induction k as [|k IH]; intros s i Hi Hk.
  - exists s. simpl. rewrite Nat.add_0_r. split_and!; try done.
    intros x z. by destruct (cellAt (maze s) x z).
  - destruct (lookup_lt_is_Some_2 (visitedCells s) i) as [v Hv]; [lia|].
    assert (advanceVisualization s =
      Ok (setMazeAndCursor
            (touchCell (setIsVisited true) (maze s) (pos_x v) (pos_z v))
            (Z.of_nat (S i)) s, true)) as Hadv.
    { unfold advanceVisualization. rewrite mapGrid_id, Hi.
      destruct (Z.ltb_spec (Z.of_nat i) (Z.of_nat (length (visitedCells s))));
        [|lia].
      unfold nthZ. destruct (Z.leb_spec 0 (Z.of_nat i)); [|lia].
      rewrite Nat2Z.id, Hv. simpl. do 3 f_equal. lia. }
    cbn [advances]. rewrite Hadv. cbn [mbind Result_bind fst snd].
    destruct (IH (setMazeAndCursor
                    (touchCell (setIsVisited true) (maze s) (pos_x v) (pos_z v))
                    (Z.of_nat (S i)) s) (S i))
      as (s' & -> & Hi' & Hvis & Hpath & Hphase & Hdims & Hcells);
      [done|simpl; lia|].
    exists s'. cbn [mbind Result_bind fst snd replicate]. simpl in *.
    split_and!; try done.
    + rewrite Hi'. f_equal. lia.
    + by rewrite Hdims, dims_touchCell.
    + intros x z. rewrite Hcells, cellAt_touchCell.
      rewrite (drop_S _ _ _ Hv). cbn [take].
      destruct v as [vx vz]. simpl.
      destruct (cellAt (maze s) x z) as [c|];
        [|by destruct (decide (vx = x ∧ vz = z))].
      destruct (decide (vx = x ∧ vz = z)) as [[-> ->]|Hne]; simpl; f_equal.
      * rewrite (decide_True (P := _ ∈ _ :: _)) by left.
        case_decide; by destruct c.
      * destruct (decide (mkPosition x z ∈ take k (drop (S i) (visitedCells s))))
          as [Hin|Hin].
        -- by rewrite decide_True by (by right).
        -- rewrite decide_False; [done|].
           intros [[= -> ->]|?]%elem_of_cons; [naive_solver|done].
Qed.

(** X8.  After [startVisualization()], any [k] calls of
    [advanceVisualization()] with [k] at most the number of visited cells
    all return [true], leave the cursor at [k], and show the visited flag on
    exactly the first [k] visited cells and the path flag nowhere.  When
    [k] is the whole list, the next call returns [false] and the grid it
    leaves is the one that [setVisitedCells] followed by [setPath] commit
    at once: stepping ends where the instant mode starts. *)
Theorem visualization_playback (s : MazeState) (k : nat) :
  (k ≤ length (visitedCells s))%nat →
  ∃ s', advances k (startVisualization s) = Ok (s', replicate k true) ∧
    visualizationIndex s' = Z.of_nat k ∧ phase s' = visualizing ∧
    (∀ x z, cellAt (maze s') x z =
       (λ c, setIsPath false
               (setIsVisited (bool_decide (mkPosition x z ∈ take k (visitedCells s))) c))
         <$> cellAt (maze s) x z) ∧
    (k = length (visitedCells s) →
     ∃ s'', advanceVisualization s' = Ok (s'', false) ∧
       visualizationIndex s'' = Z.of_nat k ∧
       maze s'' = maze (setPath (path s) (setVisitedCells (visitedCells s) s))).
Proof.
  intros Hk.
  destruct (advances_spec k (startVisualization s) 0)
    as (s' & Hrun & Hi & Hvis & Hpath & Hphase & Hdims & Hcells); [done|simpl; lia|].
  simpl in Hi, Hvis, Hpath, Hphase, Hdims.
  assert (∀ x z, cellAt (maze s') x z =
    (λ c, setIsPath false
            (setIsVisited (bool_decide (mkPosition x z ∈ take k (visitedCells s))) c))
      <$> cellAt (maze s) x z) as Hcells'.
  { intros x z. rewrite Hcells. cbn [startVisualization maze visitedCells].
    rewrite cellAt_mapGrid, drop_0.
    destruct (cellAt (maze s) x z) as [c|]; simpl; [|done]. f_equal.
    case_decide.
    - rewrite bool_decide_true by done. by destruct c.
    - rewrite bool_decide_false by done. by destruct c. }
  exists s'. split_and!; try done.
  intros ->.
  eexists. split; [|split].
  - unfold advanceVisualization. rewrite mapGrid_id, Hi, Hvis.
    destruct (Z.ltb_spec (Z.of_nat (length (visitedCells s)))
                (Z.of_nat (length (visitedCells s)))); [lia|]. reflexivity.
  - reflexivity.
  - cbn [setMazeAndCursor maze]. apply grid_ext.
    + simpl. rewrite !dims_markCells, !dims_mapGrid, !dims_markCells, !dims_mapGrid.
      rewrite Hdims. apply dims_mapGrid.
    + intros x z. rewrite cellAt_markCells by (by intros []).
      rewrite Hcells', Hpath, cellAt_setPath, cellAt_setVisitedCells.
      rewrite take_ge by lia.
      destruct (cellAt (maze s) x z) as [c|]; simpl; [|done]. f_equal.
      case_decide.
      * rewrite (bool_decide_true (_ ∈ path s)) by done. by destruct c.
      * rewrite (bool_decide_false (_ ∈ path s)) by done. by destruct c.
Qed.

Lemma visualization_playback_witness :
  ∃ s', advances 2 (startVisualization sampleState) = Ok (s', [true; true]) ∧
    visualizationIndex s' = 2 ∧
    cellAt (maze s') 1 2 = Some (setIsVisited true (freshCell false 1 2)) ∧
    cellAt (maze s') 2 1 = Some (freshCell false 2 1).
Proof.
  assert (2 ≤ length (visitedCells sampleState))%nat as Hk by (simpl; lia).
  destruct (visualization_playback sampleState 2 Hk) as (s' & Hrun & Hi & _ & Hcells & _).
  exists s'. split; [exact Hrun|]. split; [exact Hi|].
  rewrite !Hcells. split; reflexivity.
Defined.

(** ** The solve effect *)

Lemma solveEffect_latched runAlgorithm (w : World) :
  hasSolvedRef w = true → solveEffect runAlgorithm w = w.
Proof.
  intros H. unfold solveEffect. rewrite H.
  destruct (decide _); [|done]. by destruct (selectedAlgorithm (store w)).
Qed.

Lemma solveEffect_runs runAlgorithm (w : World) :
  solveEffect runAlgorithm w = w ∨ hasSolvedRef (solveEffect runAlgorithm w) = true.
Proof.
  unfold solveEffect.
  destruct (decide _); [|by left].
  destruct (selectedAlgorithm (store w)); [|by left].
  destruct (hasSolvedRef w); [by left|]. right.
  cbn [setHasSolvedRef withStore store setStats visualizationMode].
  by destruct (visualizationMode (store w)).
Qed.

(** X10.  The solve effect runs the solver at most once per session: it
    does nothing unless the phase is [solving], an algorithm is selected
    and the latch [hasSolvedRef] is unset, and when it runs it sets the
    latch, so that running the effect again, with any solver, changes
    nothing. *)
Theorem solveEffect_once runAlgorithm runAlgorithm' (w : World) :
  solveEffect runAlgorithm' (solveEffect runAlgorithm w) = solveEffect runAlgorithm w ∧
  (phase (store w) ≠ solving ∨ selectedAlgorithm (store w) = None ∨
   hasSolvedRef w = true → solveEffect runAlgorithm w = w) ∧
  (solveEffect runAlgorithm w ≠ w → hasSolvedRef (solveEffect runAlgorithm w) = true).
Proof.
  split_and!.
  - destruct (solveEffect_runs runAlgorithm w) as [Heq|Hlatch].
    + rewrite Heq. destruct (hasSolvedRef w) eqn:E.
      * by apply solveEffect_latched.
      * unfold solveEffect in Heq |- *. rewrite E in *.
        destruct (decide _); [|done].
        destruct (selectedAlgorithm (store w)); [|done].
        exfalso. apply (f_equal hasSolvedRef) in Heq. revert Heq.
        cbn [setHasSolvedRef withStore store setStats visualizationMode].
        destruct (visualizationMode (store w)); cbn; congruence.
    + by apply solveEffect_latched.
  - intros [Hp|[Ha|Hl]].
    + unfold solveEffect. by destruct (decide _).
    + unfold solveEffect. rewrite Ha. by destruct (decide _).
    + by apply solveEffect_latched.
  - intros Hne. by destruct (solveEffect_runs runAlgorithm w).
Qed.

Lemma solveEffect_once_witness :
  let run := λ _ _ _ _, mkSolveResult [mkPosition 1 1] [mkPosition 1 1] (mkStats 0 1 1) in
  solveEffect run sampleWorld = sampleWorld.
Proof.
  intros run.
  destruct (solveEffect_once run run sampleWorld) as (_ & Hnoop & _).
  apply Hnoop. left. discriminate.
Defined.

(** ** From the solve effect to the next phase *)

Lemma findTimer_app_fresh (id : nat) (ts : list Timer) (t : Timer) :
  (∀ t', t' ∈ ts → timer_id t' ≠ id) → timer_id t = id →
  findTimer id (ts ++ [t]) = Some t.
Proof.
  intros Hts Ht. induction ts as [|t' ts IH]; simpl.
  - by rewrite Ht, Nat.eqb_refl.
  - destruct (Nat.eqb_spec (timer_id t') id) as [Heq|_].
    + destruct (Hts t'); [left|done].
    + apply IH. intros t'' Hin. apply Hts. by right.
Qed.

Lemma filter_app_fresh (id : nat) (ts : list Timer) (t : Timer) :
  (∀ t', t' ∈ ts → timer_id t' ≠ id) → timer_id t = id →
  List.filter (λ t, negb (timer_id t =? id)%nat) (ts ++ [t]) = ts.
Proof.
  intros Hts Ht. induction ts as [|t' ts IH]; simpl.
  - by rewrite Ht, Nat.eqb_refl.
  - destruct (Nat.eqb_spec (timer_id t') id) as [Heq|_]; simpl.
    + destruct (Hts t'); [left|done].
    + f_equal. apply IH. intros t'' Hin. apply Hts. by right.
Qed.

(** X12.  When the solve effect runs (phase [solving], an algorithm
    selected, latch unset), it hands the solver a grid equal to the maze,
    stores the solver's statistics, path and visited list, sets the latch
    and schedules one settle timeout which [timeoutRef] records.  In
    instant mode it commits both overlays at once and the timeout, 500 ms,
    starts the moving phase with [pathIndex] 0; in step mode it leaves the
    grid alone and the timeout, 300 ms, starts the visualizing phase with
    the cursor at 0 and both overlays cleared.  Once the timeout has fired,
    the pending timers are those from before the effect. *)
Theorem solveEffect_then_settle runAlgorithm (w : World) (algo : Algorithm) :
  phase (store w) = solving → selectedAlgorithm (store w) = Some algo →
  hasSolvedRef w = false → freshIds w →
  let result := runAlgorithm algo (maze (store w))
                  (startPos (store w)) (endPos (store w)) in
  let w1 := solveEffect runAlgorithm w in
  hasSolvedRef w1 = true ∧ phase (store w1) = solving ∧
  stats (store w1) = Some (sr_stats result) ∧
  path (store w1) = sr_path result ∧
  visitedCells (store w1) = sr_visited result ∧
  timeoutRef w1 = Some (nextTimerId w) ∧
  ∃ w2, fireTimer (nextTimerId w) w1 = Some (Ok w2) ∧ timers w2 = timers w ∧
    match visualizationMode (store w) with
    | instant =>
        store w1 = setPath (sr_path result)
                     (setVisitedCells (sr_visited result)
                        (setStats (sr_stats result) (store w))) ∧
        timers w1 = timers w ++ [mkTimer (nextTimerId w) false 500 CbStartMoving] ∧
        store w2 = startMoving (store w1)
    | step =>
        maze (store w1) = maze (store w) ∧
        timers w1 = timers w ++ [mkTimer (nextTimerId w) false 300 CbStartVisualization] ∧
        store w2 = startVisualization (store w1)
    end.
Proof.
  intros Hphase Halgo Hlatch Hfresh result w1.
  assert (∀ t', t' ∈ timers w → timer_id t' ≠ nextTimerId w) as Hne
    by (intros t' Hin%Hfresh; lia).
  subst w1 result. unfold solveEffect. rewrite Halgo, Hlatch.
  destruct (decide (phase (store w) = solving)); [|done].
  cbn [setHasSolvedRef withStore store setStats visualizationMode maze startPos endPos].
  rewrite mapGrid_id.
  destruct (visualizationMode (store w)) eqn:Hmode; cbn.
  - split_and!; try done.
    unfold fireTimer, setTimeoutRef. cbn [timers].
    rewrite (findTimer_app_fresh (nextTimerId w) (timers w)
               (mkTimer (nextTimerId w) false 500 CbStartMoving) Hne eq_refl).
    cbn [timer_repeats timer_callback timer_id runCallback clearTimer timers store
         hasSolvedRef timeoutRef visualizationIntervalRef nextTimerId withStore].
    unfold clearTimer, withStore. cbn [timers store].
    rewrite (filter_app_fresh (nextTimerId w) (timers w)
               (mkTimer (nextTimerId w) false 500 CbStartMoving) Hne eq_refl).
    eexists. split; [reflexivity|]. split_and!; try done.
  - split_and!; try done.
    unfold fireTimer, setTimeoutRef. cbn [timers].
    rewrite (findTimer_app_fresh (nextTimerId w) (timers w)
               (mkTimer (nextTimerId w) false 300 CbStartVisualization) Hne eq_refl).
    cbn [timer_repeats timer_callback timer_id runCallback clearTimer timers store
         hasSolvedRef timeoutRef visualizationIntervalRef nextTimerId withStore].
    unfold clearTimer, withStore. cbn [timers store].
    rewrite (filter_app_fresh (nextTimerId w) (timers w)
               (mkTimer (nextTimerId w) false 300 CbStartVisualization) Hne eq_refl).
    eexists. split; [reflexivity|]. split_and!; done.
Qed.

Lemma solveEffect_then_settle_witness :
  let run := λ _ _ _ _, mkSolveResult [mkPosition 1 1] [mkPosition 1 1] (mkStats 0 1 1) in
  hasSolvedRef (solveEffect run solvingWorld) = true ∧
  timeoutRef (solveEffect run solvingWorld) = Some 0%nat ∧
  path (store (solveEffect run solvingWorld)) = [mkPosition 1 1].
Proof.
  intros run.
  assert (freshIds solvingWorld) as Hfresh by (by intros t Hin%elem_of_nil).
  destruct (solveEffect_then_settle run solvingWorld bfs eq_refl eq_refl eq_refl Hfresh)
    as (Hlatch & _ & _ & Hpath & _ & Href & _).
  exact (conj Hlatch (conj Href Hpath)).
Defined.

(** ** The visualization interval, from first tick to the moving phase *)

Lemma fireTimer_last (w : World) (ts : list Timer) (t : Timer) (id : nat) :
  timers w = ts ++ [t] → timer_id t = id → (∀ t', t' ∈ ts → timer_id t' ≠ id) →
  fireTimer id w =
    Some (runCallback (timer_callback t)
            (if timer_repeats t then w
             else mkWorld (store w) (hasSolvedRef w) (timeoutRef w)
                    (visualizationIntervalRef w) ts (nextTimerId w))).
Proof.
  intros Hts Hid Hne. unfold fireTimer, clearTimer. rewrite Hts.
  rewrite (findTimer_app_fresh _ _ _ Hne Hid).
  by rewrite (filter_app_fresh _ _ _ Hne Hid).
Qed.

Lemma fireTimes_ticks (iid : nat) (ts : list Timer) (k : nat) :
  (∀ t', t' ∈ ts → timer_id t' ≠ iid) →
  ∀ (w : World) (s' : MazeState),
    timers w = ts ++ [mkTimer iid true 30 CbVisualizationTick] →
    advances k (store w) = Ok (s', replicate k true) →
    fireTimes k iid w = Some (Ok (withStore s' w)).
Proof.
  intros Hne. induction k as [|k IH]; intros w s' Hts Hadv.
  - injection Hadv as <-. by destruct w.
  - cbn [advances] in Hadv.
    apply bind_Ok in Hadv as ([s1 b1] & H1 & Hrest).
    apply bind_Ok in Hrest as ([s2 bs] & H2 & [= <- -> ->]).
    cbn [fst snd] in *. cbn [fireTimes].
    rewrite (fireTimer_last w ts (mkTimer iid true 30 CbVisualizationTick) iid
               Hts eq_refl Hne).
    cbn [timer_repeats timer_callback runCallback]. rewrite H1.
    cbn [mbind Result_bind fst snd].
    rewrite (IH (withStore s1 w) s2); [done|by destruct w|done].
Qed.

(** X13.  Once the visualization effect has installed its interval in a
    session that has just entered the visualizing phase (cursor 0), firing
    the interval as many times as there are visited cells advances the
    cursor each time and touches no timer; the next firing reports
    exhaustion, cancels the interval (it cannot fire again), nulls its ref
    and schedules one 500 ms timeout that [timeoutRef] records; firing that
    timeout starts the moving phase and leaves pending only the timers that
    were there before the effect. *)
Theorem visualization_interval_runs_out (w : World) :
  phase (store w) = visualizing → visualizationIndex (store w) = 0 →
  freshIds w →
  let n := length (visitedCells (store w)) in
  let iid := nextTimerId w in
  let w1 := visualizationEffect w in
  visualizationIntervalRef w1 = Some iid ∧
  ∃ s1 s2 w2 w3,
    advances n (store w) = Ok (s1, replicate n true) ∧
    fireTimes n iid w1 = Some (Ok (withStore s1 w1)) ∧
    advanceVisualization s1 = Ok (s2, false) ∧
    fireTimer iid (withStore s1 w1) = Some (Ok w2) ∧
    store w2 = s2 ∧ visualizationIntervalRef w2 = None ∧
    timeoutRef w2 = Some (S iid) ∧
    timers w2 = timers w ++ [mkTimer (S iid) false 500 CbStartMoving] ∧
    fireTimer iid w2 = None ∧
    fireTimer (S iid) w2 = Some (Ok w3) ∧
    store w3 = startMoving s2 ∧ timers w3 = timers w.
Proof.
  intros Hphase Hidx Hfresh n iid w1.
  assert (∀ t', t' ∈ timers w → timer_id t' ≠ iid) as Hne
    by (intros t' Hin%Hfresh; subst iid; lia).
  assert (∀ t', t' ∈ timers w → timer_id t' ≠ S iid) as Hne'
    by (intros t' Hin%Hfresh; subst iid; lia).
  assert (w1 = mkWorld (store w) (hasSolvedRef w) (timeoutRef w) (Some iid)
                 (timers w ++ [mkTimer iid true 30 CbVisualizationTick]) (S iid))
    as Hw1.
  { subst w1. unfold visualizationEffect. by rewrite decide_True by done. }
  split; [by rewrite Hw1|].
  destruct (advances_spec n (store w) 0)
    as (s1 & Hrun & Hi & Hvis & _); [done|subst n; lia|].
  assert (advanceVisualization s1 =
    Ok (setMazeAndCursor (markCells (setIsPath true) (path s1) (maze s1))
          (visualizationIndex s1) s1, false)) as Hlast.
  { unfold advanceVisualization. rewrite mapGrid_id, Hi, Hvis.
    destruct (Z.ltb_spec (Z.of_nat (0 + n))
                (Z.of_nat (length (visitedCells (store w))))); [subst n; lia|done]. }
  set (s2 := setMazeAndCursor (markCells (setIsPath true) (path s1) (maze s1))
               (visualizationIndex s1) s1) in *.
  set (w2 := mkWorld s2 (hasSolvedRef w) (Some (S iid)) None
               (timers w ++ [mkTimer (S iid) false 500 CbStartMoving]) (S (S iid))).
  exists s1, s2, w2, (withStore (startMoving s2)
    (mkWorld s2 (hasSolvedRef w) (Some (S iid)) None (timers w) (S (S iid)))).
  split_and!; try done.
  - apply (fireTimes_ticks iid (timers w)); [done|by rewrite Hw1|by rewrite Hw1].
  - rewrite (fireTimer_last (withStore s1 w1) (timers w)
               (mkTimer iid true 30 CbVisualizationTick) iid);
      [|by rewrite Hw1|done|done].
    cbn [timer_repeats timer_callback runCallback]. rewrite Hw1.
    cbn [withStore store hasSolvedRef timeoutRef visualizationIntervalRef timers
         nextTimerId].
    rewrite Hlast. cbn [mbind Result_bind fst snd].
    unfold withStore, setIntervalRef, clearTimer, schedule, setTimeoutRef.
    cbn [store hasSolvedRef timeoutRef visualizationIntervalRef timers nextTimerId].
    by rewrite (filter_app_fresh iid (timers w)
                  (mkTimer iid true 30 CbVisualizationTick) Hne eq_refl).
  - unfold fireTimer. rewrite findTimer_None; [done|].
    intros t [Hin|Hin%list_elem_of_singleton]%elem_of_app.
    + by apply Hne.
    + subst t. simpl. lia.
  - by rewrite (fireTimer_last w2 (timers w)
                  (mkTimer (S iid) false 500 CbStartMoving) (S iid) eq_refl eq_refl Hne').
Qed.

Lemma visualization_interval_runs_out_witness :
  ∃ s1 w2,
    fireTimes 3 1 (visualizationEffect visualizingWorld)
      = Some (Ok (withStore s1 (visualizationEffect visualizingWorld))) ∧
    fireTimer 1 (withStore s1 (visualizationEffect visualizingWorld)) = Some (Ok w2) ∧
    visualizationIntervalRef w2 = None ∧ timeoutRef w2 = Some 2%nat ∧
    fireTimer 1 w2 = None.
Proof.
  assert (freshIds visualizingWorld) as Hfresh by (by intros t Hin%elem_of_nil).
  destruct (visualization_interval_runs_out visualizingWorld eq_refl eq_refl Hfresh)
    as (_ & s1 & s2 & w2 & w3 & _ & Hfires & _ & Hfire & _ & Hiref & Htref & _ & Hgone & _).
  exists s1, w2. exact (conj Hfires (conj Hfire (conj Hiref (conj Htref Hgone)))).
Defined.

(** ** What the preset loader builds *)

Lemma touchCell_inGrid f width height m x z :
  gridShape width height m → inGrid width height x z = true →
  touchCell f m x z = alterCell f x z m.
Proof.
  intros Hm Hin. unfold touchCell.
  by destruct (proj2 (gridShape_cellAt _ _ m x z Hm) Hin) as [c ->].
Qed.

(** A loop that writes two cells of the grid in each round. *)
Lemma forEachM_two_cells f width height (x1 z1 x2 z2 : Z → Z) (l : list Z) (m : Grid) :
  keepsCoords f → gridShape width height m →
  (∀ a, a ∈ l → inGrid width height (x1 a) (z1 a) = true ∧
                 inGrid width height (x2 a) (z2 a) = true) →
  forEachM (λ m a, m ← updateCell f m (x1 a) (z1 a); updateCell f m (x2 a) (z2 a)) m l =
    Ok (markCells f (l ≫= λ a, [mkPosition (x1 a) (z1 a); mkPosition (x2 a) (z2 a)]) m).
Proof.
  intros Hf. revert m. induction l as [|a l IH]; intros m Hm Hin; [done|].
  cbn [forEachM]. destruct (Hin a) as [H1 H2]; [left|].
  rewrite (updateCell_inGrid _ width height) by done. cbn [mbind Result_bind].
  rewrite (updateCell_inGrid _ width height) by auto with maze.
  cbn [mbind Result_bind].
  rewrite IH; [|auto with maze|intros a' Ha'; apply Hin; by right].
  rewrite bind_cons. unfold markCells. cbn [app fold_left pos_x pos_z].
  rewrite (touchCell_inGrid f width height m) by done.
  by rewrite (touchCell_inGrid f width height) by auto with maze.
Qed.

Lemma layRing_markCells (width height : Z) (m : Grid) :
  1 ≤ width → 1 ≤ height → gridShape width height m →
  layRing width height m =
    Ok (markCells (setIsWall true)
          (seqZ 0 height ≫= λ z, [mkPosition 0 z; mkPosition (width - 1) z])
          (markCells (setIsWall true)
             (seqZ 0 width ≫= λ x, [mkPosition x 0; mkPosition x (height - 1)]) m)).
Proof.
  intros Hw Hh Hm. unfold layRing.
  rewrite (forEachM_two_cells (setIsWall true) width height
             (λ x, x) (λ _, 0) (λ x, x) (λ _, height - 1)); [|auto with maze|done|].
  2:{ intros a Ha%elem_of_seqZ. unfold inGrid.
      rewrite !andb_true_iff, !Z.leb_le, !Z.ltb_lt. lia. }
  cbn [mbind Result_bind].
  rewrite (forEachM_two_cells (setIsWall true) width height
             (λ _, 0) (λ z, z) (λ _, width - 1) (λ z, z)); [done|auto with maze..|].
  intros a Ha%elem_of_seqZ. unfold inGrid.
  rewrite !andb_true_iff, !Z.leb_le, !Z.ltb_lt. lia.
Qed.

(** X6.  For any catalog entry of at least 2 x 2 cells none of whose wall
    pairs that pass the guard has a negative coordinate, the loader
    returns a grid of the entry's size in which a cell is a wall exactly
    when it lies on the boundary ring or its pair [(z, x)] is in the wall
    list, and it is neither the start (1,1) nor the end
    (width-2,height-2); the start flag is on (1,1) alone, the end flag on
    the end cell alone, and no overlay is set. *)
Theorem buildPresetMaze_cells (preset : Preset) :
  2 ≤ preset_width preset → 2 ≤ preset_height preset →
  Forall (safeWall (preset_width preset) (preset_height preset)) (preset_walls preset) →
  ∃ r, buildPresetMaze preset = Ok r ∧
    pm_width r = preset_width preset ∧ pm_height r = preset_height preset ∧
    pm_start r = mkPosition 1 1 ∧
    pm_end r = mkPosition (preset_width preset - 2) (preset_height preset - 2) ∧
    gridShape (pm_width r) (pm_height r) (pm_maze r) ∧
    ∀ x z c, cellAt (pm_maze r) x z = Some c →
      (isWall c = true ↔
         (onRing (pm_width r) (pm_height r) x z ∨ (z, x) ∈ preset_walls preset) ∧
         ¬ (x = 1 ∧ z = 1) ∧ ¬ (x = pm_width r - 2 ∧ z = pm_height r - 2)) ∧
      (isStart c = true ↔ x = 1 ∧ z = 1) ∧
      (isEnd c = true ↔ x = pm_width r - 2 ∧ z = pm_height r - 2) ∧
      isPath c = false ∧ isVisited c = false.
Proof.
  destruct preset as [walls width height]. cbn [preset_width preset_height preset_walls].
  intros Hw Hh Hsafe. unfold buildPresetMaze.
  cbn [preset_width preset_height preset_walls pos_x pos_z].
  assert (gridShape width height (initGrid false width height)) as Hinit
    by (apply gridShape_initGrid; lia).
  rewrite layRing_markCells by (lia || done). cbn [mbind Result_bind].
  set (ringX := seqZ 0 width ≫= λ x, [mkPosition x 0; mkPosition x (height - 1)]).
  set (ringZ := seqZ 0 height ≫= λ z, [mkPosition 0 z; mkPosition (width - 1) z]).
  set (m1 := markCells (setIsWall true) ringZ
               (markCells (setIsWall true) ringX (initGrid false width height))).
  assert (gridShape width height m1) as Hm1 by (unfold m1; auto with maze).
  rewrite (layWalls_markCells width height) by done. cbn [mbind Result_bind].
  set (wallCells := (λ wall : Z * Z, mkPosition wall.2 wall.1) <$> walls).
  set (m2 := markCells (setIsWall true) wallCells m1).
  assert (gridShape width height m2) as Hm2 by (unfold m2; auto with maze).
  assert (inGrid width height 1 1 = true) as Hin1.
  { unfold inGrid. rewrite !andb_true_iff, !Z.leb_le, !Z.ltb_lt. lia. }
  assert (inGrid width height (width - 2) (height - 2) = true) as Hin2.
  { unfold inGrid. rewrite !andb_true_iff, !Z.leb_le, !Z.ltb_lt. lia. }
  set (m3 := alterCell (setIsStart true) 1 1 m2).
  set (m4 := alterCell (setIsWall false) 1 1 m3).
  set (m5 := alterCell (setIsEnd true) (width - 2) (height - 2) m4).
  set (m6 := alterCell (setIsWall false) (width - 2) (height - 2) m5).
  assert (gridShape width height m3) as Hm3 by (unfold m3; auto with maze).
  assert (gridShape width height m4) as Hm4 by (unfold m4; auto with maze).
  assert (gridShape width height m5) as Hm5 by (unfold m5; auto with maze).
  assert (gridShape width height m6) as Hm6 by (unfold m6; auto with maze).
  rewrite (updateCell_inGrid _ width height m2) by done.
  cbn [mbind Result_bind]. fold m3.
  rewrite (updateCell_inGrid _ width height m3) by done.
  cbn [mbind Result_bind]. fold m4.
  rewrite (updateCell_inGrid _ width height m4) by done.
  cbn [mbind Result_bind]. fold m5.
  rewrite (updateCell_inGrid _ width height m5) by done.
  cbn [mbind Result_bind]. fold m6.
  eexists. split; [reflexivity|].
  cbn [pm_width pm_height pm_start pm_end pm_maze].
  split_and!; try done.
  intros x z c Hc.
  assert (inGrid width height x z = true) as Hin
    by (apply (gridShape_cellAt _ _ _ _ _ Hm6); eauto).
  assert (0 ≤ x < width ∧ 0 ≤ z < height) as Hrange.
  { unfold inGrid in Hin. rewrite !andb_true_iff, !Z.leb_le, !Z.ltb_lt in Hin. lia. }
  assert (mkPosition x z ∈ ringX ↔ z = 0 ∨ z = height - 1) as HringX.
  { unfold ringX. rewrite list_elem_of_bind. split.
    - intros (a & Ha & _). rewrite !elem_of_cons, elem_of_nil in Ha.
      destruct Ha as [[= -> ->]|[[= -> ->]|[]]]; lia.
    - intros Hz. exists x. rewrite elem_of_seqZ, !elem_of_cons.
      split; [|lia]. destruct Hz as [-> | ->]; auto. }
  assert (mkPosition x z ∈ ringZ ↔ x = 0 ∨ x = width - 1) as HringZ.
  { unfold ringZ. rewrite list_elem_of_bind. split.
    - intros (a & Ha & _). rewrite !elem_of_cons, elem_of_nil in Ha.
      destruct Ha as [[= -> ->]|[[= -> ->]|[]]]; lia.
    - intros Hx. exists z. rewrite elem_of_seqZ, !elem_of_cons.
      split; [|lia]. destruct Hx as [-> | ->]; auto. }
  assert (mkPosition x z ∈ wallCells ↔ (z, x) ∈ walls) as Hwalls.
  { unfold wallCells. rewrite list_elem_of_fmap. split.
    - by intros ([z' x'] & [= -> ->] & Hin').
    - intros Hin'. by exists (z, x). }
  revert Hc. unfold m6, m5, m4, m3, m2, m1.
  rewrite !cellAt_alterCell.
  rewrite !cellAt_markCells by (by intros []).
  rewrite cellAt_initGrid, Hin. cbn [fmap option_fmap option_map].
  unfold onRing.
  destruct (decide (mkPosition x z ∈ ringX)) as [HX|HX]; rewrite HringX in HX;
    destruct (decide (mkPosition x z ∈ ringZ)) as [HZ|HZ]; rewrite HringZ in HZ;
    destruct (decide (mkPosition x z ∈ wallCells)) as [HW|HW]; rewrite Hwalls in HW;
    destruct (decide (width - 2 = x ∧ height - 2 = z)) as [[? ?]|?];
    destruct (decide (1 = x ∧ 1 = z)) as [[? ?]|?];
    cbn [fmap option_fmap option_map];
    intros [= <-]; cbn;
    (split_and!; [split; intros Hyp|split; intros Hyp|split; intros Hyp
                 |reflexivity|reflexivity]);
    try reflexivity; try discriminate Hyp; try (exfalso; lia);
    try (split_and!; lia); try tauto; intuition lia.
Qed.

Lemma buildPresetMaze_cells_witness :
  ∃ r, buildPresetMaze (mkPreset [(1, 2); (9, 1); (2, 7)] 4 5) = Ok r ∧
    ∀ x z c, cellAt (pm_maze r) x z = Some c →
      (isWall c = true ↔
         (onRing (pm_width r) (pm_height r) x z ∨ (z, x) ∈ [(1, 2); (9, 1); (2, 7)]) ∧
         ¬ (x = 1 ∧ z = 1) ∧ ¬ (x = pm_width r - 2 ∧ z = pm_height r - 2)).
Proof.
  assert (Forall (safeWall 4 5) [(1, 2); (9, 1); (2, 7)]) as Hsafe
    by (repeat constructor; unfold safeWall; simpl; lia).
  destruct (buildPresetMaze_cells (mkPreset [(1, 2); (9, 1); (2, 7)] 4 5))
    as (r & Hr & _ & _ & _ & _ & _ & Hcells); [simpl; lia|simpl; lia|exact Hsafe|].
  exists r. split; [exact Hr|]. intros x z c Hc. by destruct (Hcells x z c Hc).
Defined.

(** ** The carving reaches every node *)









Section Cover.
Variables width height : Z.



End Cover.



(** ** Walls, start and end are never touched after generation *)

Lemma freshMaze_mazeFrame width height m :
  freshMaze width height m → mazeFrame width height m.
Proof.
  intros [Hshape Hcells]. split; [done|]. intros x z c Hc.
  destruct (Hcells x z c Hc) as (-> & -> & _ & _ & ? & ?).
  by rewrite !bool_decide_eq_true.
Qed.

Lemma mazeFrame_cells width height m m' :
  mazeFrame width height m → gridShape width height m' →
  (∀ x z c', cellAt m' x z = Some c' →
     ∃ c, cellAt m x z = Some c ∧
          isWall c' = isWall c ∧ isStart c' = isStart c ∧ isEnd c' = isEnd c) →
  mazeFrame width height m'.
Proof.
  intros [_ Hcells] Hshape Hsame. split; [done|]. intros x z c' Hc'.
  destruct (Hsame x z c' Hc') as (c & Hc & -> & -> & ->). by apply Hcells.
Qed.

Lemma mazeFrame_mapGrid f width height m :
  overlayOnly f → mazeFrame width height m → mazeFrame width height (mapGrid f m).
Proof.
  intros Hf Hm. apply (mazeFrame_cells width height m); [done| |].
  - apply gridShape_mapGrid; [|by destruct Hm]. intros c. by destruct (Hf c) as (? & ? & _).
  - intros x z c'. rewrite cellAt_mapGrid.
    destruct (cellAt m x z) as [c|]; [|done]. intros [= <-].
    exists c. by destruct (Hf c) as (_ & _ & ? & ? & ?).
Qed.

Lemma mazeFrame_touchCell f width height m a b :
  overlayOnly f → mazeFrame width height m → mazeFrame width height (touchCell f m a b).
Proof.
  intros Hf Hm. apply (mazeFrame_cells width height m); [done| |].
  - apply gridShape_touchCell; [|by destruct Hm]. intros c. by destruct (Hf c) as (? & ? & _).
  - intros x z c'. rewrite cellAt_touchCell.
    destruct (cellAt m x z) as [c|]; [|by case_decide].
    case_decide; intros [= <-]; exists c; [|done].
    by destruct (Hf c) as (_ & _ & ? & ? & ?).
Qed.

Lemma mazeFrame_markCells f width height cells m :
  overlayOnly f → mazeFrame width height m →
  mazeFrame width height (markCells f cells m).
Proof.
  intros Hf. revert m. unfold markCells.
  induction cells as [|p cells IH]; simpl; [done|].
  intros m Hm. apply IH. by apply mazeFrame_touchCell.
Qed.

Lemma overlayOnly_setIsPath b : overlayOnly (setIsPath b).
Proof. by intros []. Qed.
Lemma overlayOnly_setIsVisited b : overlayOnly (setIsVisited b).
Proof. by intros []. Qed.
Lemma overlayOnly_clear : overlayOnly (λ cell, setIsPath false (setIsVisited false cell)).
Proof. by intros []. Qed.
Lemma overlayOnly_id : overlayOnly (λ cell, cell).
Proof. by intros []. Qed.

#[global] Hint Resolve mazeFrame_mapGrid mazeFrame_touchCell mazeFrame_markCells
  overlayOnly_setIsPath overlayOnly_setIsVisited overlayOnly_clear overlayOnly_id : maze.

Lemma frameInv_exec (op : Op) (s s' : MazeState) :
  frameInv s → exec op s = Ok s' → frameInv s'.
Proof.
  unfold frameInv. intros (Hm & Hs & He) Hexec.
  destruct op; simpl in Hexec; try (injection Hexec as <-); simpl;
    try (split_and!; auto with maze; done).
  - unfold startGame. by destruct (selectedAlgorithm s).
  - apply bind_Ok in Hexec as ([s1 b] & Hadv & [= <-]).
    unfold advanceVisualization in Hadv. destruct (_ <? _).
    + apply bind_Ok in Hadv as (c & _ & [= <- <-]). simpl.
      split_and!; auto with maze.
    + injection Hadv as <- <-. simpl. split_and!; auto with maze.
  - unfold moveBall. by destruct (_ <? _).
  - unfold restart in Hexec. apply bind_Ok in Hexec as (r & Hr & [= <-]). simpl.
    destruct (generateRandomMaze_spec (DIFFICULTY_SIZES (difficulty s)).1
                (DIFFICULTY_SIZES (difficulty s)).2 rng)
      as (r' & Hr' & Hst & Hen & Hfresh & _);
      [destruct (difficulty s); simpl; lia..|].
    rewrite Hr in Hr'. injection Hr' as <-.
    split_and!; [by apply freshMaze_mazeFrame|done|done].
  - unfold generateMaze in Hexec. apply bind_Ok in Hexec as (r & Hr & [= <-]). simpl.
    destruct (generateRandomMaze_spec (DIFFICULTY_SIZES (difficulty s)).1
                (DIFFICULTY_SIZES (difficulty s)).2 rng)
      as (r' & Hr' & Hst & Hen & Hfresh & _);
      [destruct (difficulty s); simpl; lia..|].
    rewrite Hr in Hr'. injection Hr' as <-.
    split_and!; [by apply freshMaze_mazeFrame|done|done].
  - unfold loadPresetMaze in Hexec. apply bind_Ok in Hexec as (r & Hr & [= <-]). simpl.
    destruct (createPresetMaze_Ok _ _ Hr) as (-> & -> & -> & -> & Hfresh).
    split_and!; [by apply freshMaze_mazeFrame|done|done].
Qed.

(** X14.  No store operation alters a wall, the start flag or the end
    flag of the current maze: only the generators write them.  Hence in
    every state the store can reach, [startPos] is (1,1), [endPos] is
    (mazeWidth-2, mazeHeight-2), exactly those two cells carry [isStart]
    and [isEnd], both are open, and the boundary ring is all wall. *)
Theorem maze_frame_invariant :
  (∀ op s s', frameInv s → exec op s = Ok s' → frameInv s') ∧
  (∀ s, reachable s → frameInv s).
Proof.
  split; [apply frameInv_exec|].
  induction 1 as [s Hs|op s s' _ IH Hexec]; [|by eapply frameInv_exec].
  unfold createStore in Hs. apply bind_Ok in Hs as (r & Hr & [= <-]).
  unfold frameInv. simpl.
  destruct (createPresetMaze_Ok _ _ Hr) as (-> & -> & -> & -> & Hfresh).
  split_and!; [by apply freshMaze_mazeFrame|done|done].
Qed.

Lemma maze_frame_invariant_witness :
  ∃ s0 s, createStore = Ok s0 ∧
    run [OpSetVisitedCells [mkPosition 0 0; mkPosition 1 1]; OpSetPath [mkPosition 13 13];
         OpStartVisualization] s0 = Ok s ∧
    frameInv s.
Proof.
  destruct (createPresetMaze_nonneg 0) as (entry & r & _ & _ & Hr & _); [lia|].
  assert (∃ s0, createStore = Ok s0) as [s0 Hs0]
    by (unfold createStore; rewrite Hr; simpl; eauto).
  assert (reachable s0) as Hreach0 by (by constructor).
  assert (∃ s, run [OpSetVisitedCells [mkPosition 0 0; mkPosition 1 1];
                    OpSetPath [mkPosition 13 13]; OpStartVisualization] s0 = Ok s)
    as [s Hs] by (eexists; reflexivity).
  exists s0, s. split; [exact Hs0|]. split; [exact Hs|].
  destruct maze_frame_invariant as [_ Hreach].
  exact (Hreach s (run_reachable _ _ _ Hreach0 Hs)).
Defined.
